(** * turnpike: the default broker and the default router

    A shallow embedding of [broker.go] and [router.go].  The broker's four
    Go maps become finite maps, [*Session] pointers become opaque
    references compared by identity, every [Send] is appended to an output
    trace, and the reader-writer lock is left out: the development follows
    one call at a time, which is what the lock enforces for the map
    updates. *)

From Stdlib Require Import ZArith NArith String List Floats.PrimFloat.
From stdpp Require Import base option list gmap strings.

Local Open Scope string_scope.
Local Open Scope list_scope.

Set Warnings "-register-all,-clear-no-such-hyp".

(** ** Types the two files use but do not declare *)

(** [type URI string] and [type ID uint64]. *)
Abbreviation URI := string (only parsing).
Abbreviation ID := N (only parsing).

(** A [*Session]: only the identity of the pointer matters to the broker. *)
Abbreviation SessionRef := positive (only parsing).

(** The dynamic values an [interface{}] of a WAMP message can hold, which
    are what the JSON and MessagePack decoders produce: nil, [bool],
    [int64], [uint64], [float64], [string], [[]interface{}] and
    [map[string]interface{}]. *)
Inductive Value : Type :=
  | VNil
  | VBool (b : bool)
  | VInt (i : Z)
  | VUint (u : N)
  | VFloat (f : float)
  | VString (s : string)
  | VList (l : list Value)
  | VMap (m : list (string * Value)).

(** [map[string]interface{}]; a nil map reads like the empty one. *)
Abbreviation Dict := (gmap string Value) (only parsing).

(** Go's [a != b] on two [interface{}] values.  Values of different dynamic
    types are unequal; values of the same comparable type are compared;
    two values of the same uncomparable type (slice, map) make the
    comparison panic at run time, which is [None] here. *)
Definition iface_neq (a b : Value) : option bool :=
  match a, b with
  | VNil, VNil => Some false
  | VBool x, VBool y => Some (negb (Bool.eqb x y))
  | VInt x, VInt y => Some (negb (Z.eqb x y))
  | VUint x, VUint y => Some (negb (N.eqb x y))
  | VFloat x, VFloat y => Some (negb (PrimFloat.eqb x y))
  | VString x, VString y => Some (negb (String.eqb x y))
  | VList _, VList _ => None
  | VMap _, VMap _ => None
  | _, _ => Some true
  end.

(** Message kinds, as far as the two files name them. *)
Inductive MessageType : Type :=
  | HELLO | WELCOME | ABORT | GOODBYE | ERROR
  | PUBLISH | PUBLISHED | SUBSCRIBE | SUBSCRIBED
  | UNSUBSCRIBE | UNSUBSCRIBED | EVENT.

Record Publish : Type := mkPublish {
  pub_Request : ID;
  pub_Options : Dict;
  pub_Topic : URI;
  pub_Arguments : list Value;
  pub_ArgumentsKw : Dict }.

Record Subscribe : Type := mkSubscribe {
  sub_Request : ID;
  sub_Options : Dict;
  sub_Topic : URI }.

Record Unsubscribe : Type := mkUnsubscribe {
  unsub_Request : ID;
  unsub_Subscription : ID }.

Record Hello : Type := mkHello {
  hello_Realm : URI;
  hello_Details : Dict }.

(** A [*Welcome]; [welcome_Details] is [None] for a nil map. *)
Record Welcome : Type := mkWelcome {
  welcome_Id : ID;
  welcome_Details : option Dict }.

Inductive Message : Type :=
  | MHello (m : Hello)
  | MWelcome (m : Welcome)
  | MAbort (Reason : URI) (Details : Dict)
  | MGoodbye (Reason : URI)
  | MError (Type_ : MessageType) (Request : ID) (Error : URI)
  | MPublish (m : Publish)
  | MPublished (Request Publication : ID)
  | MSubscribe (m : Subscribe)
  | MSubscribed (Request Subscription : ID)
  | MUnsubscribe (m : Unsubscribe)
  | MUnsubscribed (Request : ID)
  | MEvent (Publication Subscription : ID) (Details : Dict)
           (Arguments : list Value) (ArgumentsKw : Dict).

Definition MessageType_of (m : Message) : MessageType :=
  match m with
  | MHello _ => HELLO
  | MWelcome _ => WELCOME
  | MAbort _ _ => ABORT
  | MGoodbye _ => GOODBYE
  | MError _ _ _ => ERROR
  | MPublish _ => PUBLISH
  | MPublished _ _ => PUBLISHED
  | MSubscribe _ => SUBSCRIBE
  | MSubscribed _ _ => SUBSCRIBED
  | MUnsubscribe _ => UNSUBSCRIBE
  | MUnsubscribed _ => UNSUBSCRIBED
  | MEvent _ _ _ _ _ => EVENT
  end.

(** Modelled from the spec: the well-known URIs, whose Go constants
    ([ErrNoSuchSubscription], [ErrSystemShutdown], [ErrNoSuchRealm],
    [ErrAuthorizationFailed]) are declared outside the two files. *)
Definition ErrNoSuchSubscription : URI := "wamp.error.no_such_subscription".
Definition ErrSystemShutdown : URI := "wamp.error.system_shutdown".
Definition ErrNoSuchRealm : URI := "wamp.error.no_such_realm".
Definition ErrAuthorizationFailed : URI := "wamp.error.authorization_failed".

(** One [Send] on a session's peer: the receiver and the message.  The error
    a [Send] returns is dropped by every caller in the broker. *)
Abbreviation Sent := (SessionRef * Message)%type (only parsing).

(** ** broker.go *)

Record defaultBroker : Type := mkBroker {
  options : gmap URI (gmap ID Dict);
  routes : gmap URI (gmap ID SessionRef);
  subscriptions : gmap ID URI;
  sessions : gmap SessionRef (gset ID) }.

(** How a call leaves: by returning, or by a run-time panic. *)
Inductive Outcome : Type := Returned | Panicked.

(** What the inner loop of [Publish] decides for one subscriber. *)
Inductive Verdict : Type := Deliver | Skip | Panic.

Module Broker.

Definition NewDefaultBroker : defaultBroker :=
  mkBroker ∅ ∅ ∅ ∅.

(** [for option, pubValue := range msg.Options], the entries in the order
    the range visits them: the first shared key whose values differ leaves
    by [continue subscriber]. *)
Fixpoint match_options (subOptions : Dict) (pubOptions : list (string * Value))
  : Verdict :=
  match pubOptions with
  | [] => Deliver
  | (option, pubValue) :: rest =>
      match subOptions !! option with
      | Some subValue =>
          match iface_neq subValue pubValue with
          | None => Panic
          | Some true => Skip
          | Some false => match_options subOptions rest
          end
      | None => match_options subOptions rest
      end
  end.

(** [for id, sub := range br.routes[msg.Topic]], over the entries in the
    order the range visits them.  [event id] is the shallow copy of the
    template with its [Subscription] set; [topicOptions] is
    [br.options[msg.Topic]]. *)
Fixpoint fanout (pub : SessionRef) (event : ID → Message)
    (topicOptions : gmap ID Dict) (pubOptions : list (string * Value))
    (entries : list (ID * SessionRef)) : list Sent * Outcome :=
  match entries with
  | [] => ([], Returned)
  | (id, sub) :: rest =>
      if decide (sub = pub) then
        fanout pub event topicOptions pubOptions rest
      else
        match match_options (default ∅ (topicOptions !! id)) pubOptions with
        | Panic => ([], Panicked)
        | Skip => fanout pub event topicOptions pubOptions rest
        | Deliver =>
            let '(sent, out) :=
              fanout pub event topicOptions pubOptions rest in
            ((sub, event id) :: sent, out)
        end
  end.

(** [doPub, _ := msg.Options["acknowledge"].(bool)]. *)
Definition acknowledge (opts : Dict) : bool :=
  match opts !! "acknowledge" with
  | Some (VBool doPub) => doPub
  | _ => false
  end.

(** [Publish]; [pubID] is what [NewID()] returned.  The maps are ranged in
    the order [map_to_list] lists them. *)
Definition Publish (pub : SessionRef) (pubID : ID) (msg : Publish)
    (br : defaultBroker) : defaultBroker * (list Sent * Outcome) :=
  let event id :=
    MEvent pubID id ∅ (pub_Arguments msg) (pub_ArgumentsKw msg) in
  let '(sent, out) :=
    fanout pub event
      (default ∅ (options br !! pub_Topic msg))
      (map_to_list (pub_Options msg))
      (map_to_list (default ∅ (routes br !! pub_Topic msg))) in
  match out with
  | Panicked => (br, (sent, Panicked))
  | Returned =>
      if acknowledge (pub_Options msg) then
        (br, ((sent ++ [(pub, MPublished (pub_Request msg) pubID)])%list,
              Returned))
      else (br, (sent, Returned))
  end.

(** [Subscribe]; [id] is what [NewID()] returned. *)
Definition Subscribe (sub : SessionRef) (id : ID) (msg : Subscribe)
    (br : defaultBroker) : defaultBroker * list Sent :=
  let route :=
    match routes br !! sub_Topic msg with Some r => r | None => ∅ end in
  let routes' := <[sub_Topic msg := <[id := sub]> route]> (routes br) in
  let option :=
    match options br !! sub_Topic msg with Some o => o | None => ∅ end in
  let options' :=
    <[sub_Topic msg := <[id := sub_Options msg]> option]> (options br) in
  let subs :=
    match sessions br !! sub with Some s => s | None => ∅ end in
  let sessions' := <[sub := {[id]} ∪ subs]> (sessions br) in
  let subscriptions' := <[id := sub_Topic msg]> (subscriptions br) in
  (mkBroker options' routes' subscriptions' sessions',
   [(sub, MSubscribed (sub_Request msg) id)]).

(** The "clean up" blocks of [Unsubscribe] and [RemoveSubscriber], written
    once for [br.routes] and [br.options]: delete [id] under [topic] when
    both exist, and drop the topic when that leaves it empty. *)
Definition clean_up {V : Type} (topic : URI) (id : ID)
    (m : gmap URI (gmap ID V)) : gmap URI (gmap ID V) :=
  match m !! topic with
  | None => m
  | Some r =>
      match r !! id with
      | None => m
      | Some _ =>
          let r' := delete id r in
          if Nat.eqb (size r') 0 then delete topic m
          else <[topic := r']> m
      end
  end.

(** The "clean up sender's subscription" block of [Unsubscribe]. *)
Definition clean_up_sender (sub : SessionRef) (id : ID)
    (m : gmap SessionRef (gset ID)) : gmap SessionRef (gset ID) :=
  match m !! sub with
  | None => m
  | Some s =>
      if decide (id ∈ s) then
        let s' := s ∖ {[id]} in
        if Nat.eqb (size s') 0 then delete sub m
        else <[sub := s']> m
      else m
  end.

(** [Unsubscribe]; [msg.MessageType()] of an [*Unsubscribe] is
    UNSUBSCRIBE. *)
Definition Unsubscribe (sub : SessionRef) (msg : Unsubscribe)
    (br : defaultBroker) : defaultBroker * list Sent :=
  match subscriptions br !! unsub_Subscription msg with
  | None =>
      (br, [(sub, MError UNSUBSCRIBE (unsub_Request msg)
                    ErrNoSuchSubscription)])
  | Some topic =>
      (mkBroker
         (clean_up topic (unsub_Subscription msg) (options br))
         (clean_up topic (unsub_Subscription msg) (routes br))
         (delete (unsub_Subscription msg) (subscriptions br))
         (clean_up_sender sub (unsub_Subscription msg) (sessions br)),
       [(sub, MUnsubscribed (unsub_Request msg))])
  end.

(** The body of the loop of [RemoveSubscriber] for one [id]. *)
Definition remove_subscription (br : defaultBroker) (id : ID)
  : defaultBroker :=
  match subscriptions br !! id with
  | None => br
  | Some topic =>
      mkBroker (clean_up topic id (options br))
               (clean_up topic id (routes br))
               (delete id (subscriptions br))
               (sessions br)
  end.

(** [for id, _ := range br.sessions[sub]] over the ids in the order the
    range visits them; the body never touches [br.sessions]. *)
Definition remove_subscriptions (ids : list ID) (br : defaultBroker)
  : defaultBroker :=
  foldl remove_subscription br ids.

(** [RemoveSubscriber]; the set is ranged in the order [elements] lists
    it. *)
Definition RemoveSubscriber (sub : SessionRef) (br : defaultBroker)
  : defaultBroker * list Sent :=
  let br' :=
    remove_subscriptions (elements (default ∅ (sessions br !! sub))) br in
  (mkBroker (options br') (routes br') (subscriptions br')
            (delete sub (sessions br')),
   []).

End Broker.

(** ** router.go *)

(** A [Realm] and a [Peer] are interface values implemented outside the two
    files; the router only stores them and calls their methods, so each is
    an opaque handle here.  A callback is a function value, named by a
    handle as well. *)
Abbreviation Realm := positive (only parsing).
Abbreviation Peer := positive (only parsing).
Abbreviation Callback := positive (only parsing).

(** [Session{Peer: client, Id: welcome.Id, kill: make(chan URI, 1)}]; the
    fresh channel carries no data of its own. *)
Record Session : Type := mkSession {
  sess_Peer : Peer;
  sess_Id : ID }.

Record defaultRouter : Type := mkRouter {
  realms : gmap URI Realm;
  closing : bool;
  sessionOpenCallbacks : list Callback;
  sessionCloseCallbacks : list Callback }.

(** The [error] values the router returns. *)
Inductive error : Type :=
  | Errorf (format : string) (arg : option MessageType)
  | RealmExistsError (uri : URI)
  | NoSuchRealmError (uri : URI)
  | AuthenticationError (text : string)
  | PeerError (text : string).

(** What a router method does to the world outside the router, in program
    order.  The [go] statements are recorded where they are issued. *)
Inductive Action : Type :=
  | AGetMessageTimeout (client : Peer) (seconds : N)
  | ASend (client : Peer) (m : Message)
  | AClose (client : Peer)
  | ARealmInit (realm : Realm)
  | ARealmClose (realm : Realm)
  | AHandleAuth (realm : Realm) (client : Peer) (details : Dict)
  | AGoCallback (callback : Callback) (id : ID) (realm : URI) (details : Dict)
  | AGoSession (realm : Realm) (sess : Session) (details : Dict)
               (uri : URI) (closeCallbacks : list Callback)
  | ALocalPipe (peerA peerB : Peer)
  | AGoHandleSession (realm : Realm) (sess : Session) (details : Dict).

(** What the calls [Accept] makes outside the router return.

    Modelled from the spec: [GetMessageTimeout] is declared outside the two
    files.  It is the peer's "receiveWithTimeout(duration) → message |
    error | timeout": it yields the next message, or an error, and a
    timeout is one of the errors; sending and closing are other operations
    of the peer, which a receive does not perform. *)
Record AcceptEnv : Type := mkAcceptEnv {
  env_GetMessageTimeout : Message + string;
  env_handleAuth : Realm → Dict → Welcome + string;
  env_NewID : ID;
  env_SendWelcome : option string }.

(** What the calls [GetLocalPeer] makes outside the router return:
    [localPipe()] and [NewID()]. *)
Record LocalPeerEnv : Type := mkLocalPeerEnv {
  env_localPipe : Peer * Peer;
  env_localID : ID }.

(** [defaultWelcomeDetails]; the inner [map[string]struct{}] is written as
    a map to empty maps. *)
Definition defaultWelcomeDetails : Dict :=
  {[ "roles" := VMap [("broker", VMap []); ("dealer", VMap [])] ]}.

Module Router.

Definition NewDefaultRouter : defaultRouter :=
  mkRouter ∅ false [] [].

Definition AddSessionOpenCallback (fn : Callback) (r : defaultRouter)
  : defaultRouter :=
  mkRouter (realms r) (closing r)
           (sessionOpenCallbacks r ++ [fn])%list (sessionCloseCallbacks r).

Definition AddSessionCloseCallback (fn : Callback) (r : defaultRouter)
  : defaultRouter :=
  mkRouter (realms r) (closing r)
           (sessionOpenCallbacks r) (sessionCloseCallbacks r ++ [fn])%list.

(** [Close]: the router it leaves, what it did, and the error returned. *)
Definition Close (r : defaultRouter)
  : defaultRouter * list Action * option error :=
  if closing r then
    (r, [], Some (Errorf "already closed" None))
  else
    (mkRouter (realms r) true
              (sessionOpenCallbacks r) (sessionCloseCallbacks r),
     (λ entry, ARealmClose entry.2) <$> map_to_list (realms r),
     None).

Definition RegisterRealm (uri : URI) (realm : Realm) (r : defaultRouter)
  : defaultRouter * list Action * option error :=
  match realms r !! uri with
  | Some _ => (r, [], Some (RealmExistsError uri))
  | None =>
      (mkRouter (<[uri := realm]> (realms r)) (closing r)
                (sessionOpenCallbacks r) (sessionCloseCallbacks r),
       [ARealmInit realm],
       None)
  end.

(** The loop of [Accept] that adds the default details to the welcome. *)
Definition add_default_details (details : Dict) : Dict :=
  foldl (λ d entry,
           match d !! entry.1 with
           | Some _ => d
           | None => <[entry.1 := entry.2]> d
           end)
        details (map_to_list defaultWelcomeDetails).

(** [Accept] never assigns to a field of the router: it yields what it did
    and the error returned. *)
Definition Accept (client : Peer) (env : AcceptEnv) (r : defaultRouter)
  : list Action * option error :=
  if closing r then
    ([ASend client (MAbort ErrSystemShutdown ∅); AClose client],
     Some (Errorf "Router is closing, no new connections are allowed" None))
  else
    match env_GetMessageTimeout env with
    | inr err => ([AGetMessageTimeout client 5], Some (PeerError err))
    | inl (MHello hello) =>
        match realms r !! hello_Realm hello with
        | None =>
            ([AGetMessageTimeout client 5;
              ASend client (MAbort ErrNoSuchRealm ∅);
              AClose client],
             Some (NoSuchRealmError (hello_Realm hello)))
        | Some realm =>
            match env_handleAuth env realm (hello_Details hello) with
            | inr err =>
                ([AGetMessageTimeout client 5;
                  AHandleAuth realm client (hello_Details hello);
                  ASend client (MAbort ErrAuthorizationFailed
                                  {[ "error" := VString err ]});
                  AClose client],
                 Some (AuthenticationError err))
            | inl welcome =>
                let id := env_NewID env in
                let details :=
                  add_default_details (default ∅ (welcome_Details welcome)) in
                let sent :=
                  [AGetMessageTimeout client 5;
                   AHandleAuth realm client (hello_Details hello);
                   ASend client (MWelcome (mkWelcome id (Some details)))] in
                match env_SendWelcome env with
                | Some err => (sent, Some (PeerError err))
                | None =>
                    ((sent
                      ++ ((λ callback,
                             AGoCallback callback id (hello_Realm hello) details)
                            <$> sessionOpenCallbacks r)
                      ++ [AGoSession realm (mkSession client id) details
                            (hello_Realm hello) (sessionCloseCallbacks r)])%list,
                     None)
                end
            end
        end
    | inl msg =>
        ([AGetMessageTimeout client 5;
          ASend client (MAbort "wamp.error.protocol_violation" ∅);
          AClose client],
         Some (Errorf "protocol violation: expected HELLO, received %s"
                 (Some (MessageType_of msg))))
    end.

(** [GetLocalPeer]: what it did, and the peer or the error returned. *)
Definition GetLocalPeer (realmURI : URI) (details : option Dict)
    (env : LocalPeerEnv) (r : defaultRouter)
  : list Action * (Peer + error) :=
  let '(peerA, peerB) := env_localPipe env in
  let sess := mkSession peerA (env_localID env) in
  match realms r !! realmURI with
  | Some realm =>
      ([ALocalPipe peerA peerB;
        AGoHandleSession realm sess (default ∅ details)],
       inl peerB)
  | None => ([ALocalPipe peerA peerB], inr (NoSuchRealmError realmURI))
  end.

End Router.

(** ** Calls in sequence *)

(** A call on the broker that may write its maps, with what [NewID()]
    returned where the method calls it. *)
Inductive BrokerCall : Type :=
  | CallSubscribe (sub : SessionRef) (id : ID) (msg : Subscribe)
  | CallUnsubscribe (sub : SessionRef) (msg : Unsubscribe)
  | CallRemoveSubscriber (sub : SessionRef).

(** A call on the router, with what the outside returns to it. *)
Inductive RouterCall : Type :=
  | CallAccept (client : Peer) (env : AcceptEnv)
  | CallClose
  | CallRegisterRealm (uri : URI) (realm : Realm)
  | CallGetLocalPeer (realmURI : URI) (details : option Dict)
                     (env : LocalPeerEnv)
  | CallAddSessionOpenCallback (fn : Callback)
  | CallAddSessionCloseCallback (fn : Callback).

Definition is_CallClose (c : RouterCall) : bool :=
  match c with CallClose => true | _ => false end.

Module Run.

(** The broker after one call. *)
Definition broker_call (br : defaultBroker) (c : BrokerCall) : defaultBroker :=
  match c with
  | CallSubscribe sub id msg => (Broker.Subscribe sub id msg br).1
  | CallUnsubscribe sub msg => (Broker.Unsubscribe sub msg br).1
  | CallRemoveSubscriber sub => (Broker.RemoveSubscriber sub br).1
  end.

(** The broker after a sequence of calls. *)
Definition broker_calls (cs : list BrokerCall) (br : defaultBroker)
  : defaultBroker :=
  foldl broker_call br cs.

(** The brokers a sequence of calls goes through, one after each call. *)
Fixpoint broker_trace (cs : list BrokerCall) (br : defaultBroker)
  : list defaultBroker :=
  match cs with
  | [] => []
  | c :: rest => broker_call br c :: broker_trace rest (broker_call br c)
  end.

(** The subscription ids [NewID()] handed out along a sequence of calls. *)
Fixpoint minted (cs : list BrokerCall) : list ID :=
  match cs with
  | [] => []
  | CallSubscribe _ id _ :: rest => id :: minted rest
  | _ :: rest => minted rest
  end.

(** The router after one call. *)
Definition router_call (r : defaultRouter) (c : RouterCall) : defaultRouter :=
  match c with
  | CallAccept client env => r
  | CallClose => (Router.Close r).1.1
  | CallRegisterRealm uri realm => (Router.RegisterRealm uri realm r).1.1
  | CallGetLocalPeer realmURI details env => r
  | CallAddSessionOpenCallback fn => Router.AddSessionOpenCallback fn r
  | CallAddSessionCloseCallback fn => Router.AddSessionCloseCallback fn r
  end.

Definition router_calls (cs : list RouterCall) (r : defaultRouter)
  : defaultRouter :=
  foldl router_call r cs.

End Run.

(** ** What the invariants speak of *)

Module Inv.

(** [m[topic][id]] with its comma-ok: a missing topic has no entries. *)
Definition lookup2 {V : Type} (m : gmap URI (gmap ID V)) (topic : URI)
    (id : ID) : option V :=
  r ← m !! topic; r !! id.

(** [id ∈ sessions[s]]: a missing session holds no ids. *)
Definition holds (m : gmap SessionRef (gset ID)) (s : SessionRef) (id : ID)
  : Prop :=
  id ∈ default ∅ (m !! s).

(** [routes[subscriptions[id]][id]]. *)
Definition route_of (br : defaultBroker) (id : ID) : option SessionRef :=
  topic ← subscriptions br !! id; lookup2 (routes br) topic id.

(** [options[subscriptions[id]][id]]. *)
Definition options_of (br : defaultBroker) (id : ID) : option Dict :=
  topic ← subscriptions br !! id; lookup2 (options br) topic id.

(** [id ∈ sessions[routes[subscriptions[id]][id]]]. *)
Definition in_sessions_of_route (br : defaultBroker) (id : ID) : Prop :=
  match route_of br id with
  | Some s => holds (sessions br) s id
  | None => False
  end.

(** The four-map consistency invariant of the broker, for one id and for
    all of them. *)
Definition consistent_at (br : defaultBroker) (id : ID) : Prop :=
  (is_Some (subscriptions br !! id) ↔ is_Some (route_of br id))
  ∧ (is_Some (route_of br id) ↔ is_Some (options_of br id))
  ∧ (is_Some (options_of br id) ↔ in_sessions_of_route br id).

Definition consistent (br : defaultBroker) : Prop :=
  ∀ id, consistent_at br id.

(** The same, read from [subscriptions]: every subscription known there
    has its route, its options and its place in the set of the session it
    is routed to. *)
Definition anchored (br : defaultBroker) : Prop :=
  ∀ id topic, subscriptions br !! id = Some topic →
    ∃ s, lookup2 (routes br) topic id = Some s
         ∧ is_Some (lookup2 (options br) topic id)
         ∧ holds (sessions br) s id.

(** No topic is kept with an empty table, no session with an empty set. *)
Definition pruned {V : Type} (m : gmap URI (gmap ID V)) : Prop :=
  ∀ topic r, m !! topic = Some r → r ≠ ∅.

Definition pruned_sessions (m : gmap SessionRef (gset ID)) : Prop :=
  ∀ s ids, m !! s = Some ids → ids ≠ ∅.

(** What holds of a broker whose subscription ids all came from [used] and
    were handed out once each. *)
Record wf (used : gset ID) (br : defaultBroker) : Prop := mkWf {
  wf_routes : ∀ topic id s,
    lookup2 (routes br) topic id = Some s →
    subscriptions br !! id = Some topic ∧ holds (sessions br) s id;
  wf_options : ∀ topic id d,
    lookup2 (options br) topic id = Some d →
    subscriptions br !! id = Some topic;
  wf_subscriptions : ∀ id topic,
    subscriptions br !! id = Some topic →
    is_Some (lookup2 (routes br) topic id)
    ∧ is_Some (lookup2 (options br) topic id);
  wf_used : ∀ s id, holds (sessions br) s id → id ∈ used;
  wf_one_holder : ∀ s s' id,
    holds (sessions br) s id → holds (sessions br) s' id → s = s';
  wf_pruned_routes : pruned (routes br);
  wf_pruned_options : pruned (options br);
  wf_pruned_sessions : pruned_sessions (sessions br) }.

(** Modelled from the spec: [NewID()] is declared outside the two files,
    and subscription ids are "freshly generated", their "uniqueness is
    required within a broker lifetime".  A broker state is what the calls
    of a sequence leave of the new broker when every [Subscribe] of the
    sequence was handed an id of its own.  [Publish] writes no map, so it
    reaches no further state. *)
Definition unique_ids (cs : list BrokerCall) : Prop :=
  NoDup (Run.minted cs).

Definition reachable (br : defaultBroker) : Prop :=
  ∃ cs, unique_ids cs ∧ br = Run.broker_calls cs Broker.NewDefaultBroker.

(** The options captured for [id] when it subscribed to [topic]:
    [br.options[topic][id]], nil when missing. *)
Definition captured_options (br : defaultBroker) (topic : URI) (id : ID)
  : Dict :=
  default ∅ (lookup2 (options br) topic id).

(** Every key present on both sides carries equal values. *)
Definition options_agree (subOptions pubOptions : Dict) : Prop :=
  ∀ key subValue pubValue,
    subOptions !! key = Some subValue → pubOptions !! key = Some pubValue →
    iface_neq subValue pubValue = Some false.

(** No key present on both sides carries two slices or two maps. *)
Definition options_comparable (subOptions pubOptions : Dict) : Prop :=
  ∀ key subValue pubValue,
    subOptions !! key = Some subValue → pubOptions !! key = Some pubValue →
    is_Some (iface_neq subValue pubValue).

(** What [Broker.clean_up] leaves of the table of one topic: the table
    without [id], or nothing when that empties it. *)
Definition clean_table {V : Type} (id : ID) (r : gmap ID V)
  : option (gmap ID V) :=
  match r !! id with
  | None => Some r
  | Some _ => if Nat.eqb (size (delete id r)) 0 then None
              else Some (delete id r)
  end.

(** A session or an id occurring somewhere in one of the four maps. *)
Definition session_occurs (br : defaultBroker) (s : SessionRef) : Prop :=
  is_Some (sessions br !! s)
  ∨ ∃ topic id, lookup2 (routes br) topic id = Some s.

Definition id_occurs (br : defaultBroker) (id : ID) : Prop :=
  is_Some (subscriptions br !! id)
  ∨ (∃ topic, is_Some (lookup2 (routes br) topic id))
  ∨ (∃ topic, is_Some (lookup2 (options br) topic id))
  ∨ (∃ s, holds (sessions br) s id).

End Inv.

(** ** Brokers and routers to run the code on *)

Module Scenario.

Definition alice : SessionRef := 1%positive.
Definition bob : SessionRef := 2%positive.

(** Alice subscribes to com.x and is handed the id 10. *)
Definition one_subscriber : defaultBroker :=
  (Broker.Subscribe alice 10 (mkSubscribe 1 ∅ "com.x")
     Broker.NewDefaultBroker).1.

(** Alice subscribes to com.x with the option exclude set to an empty
    list. *)
Definition list_subscriber : defaultBroker :=
  (Broker.Subscribe alice 10
     (mkSubscribe 1 {[ "exclude" := VList [] ]} "com.x")
     Broker.NewDefaultBroker).1.

(** Bob's publications to com.x. *)
Definition publish_exclude : Publish :=
  mkPublish 9 {[ "exclude" := VList [] ]} "com.x" [VInt 42] ∅.

Definition publish_exclude_acknowledge : Publish :=
  mkPublish 9 (<[ "acknowledge" := VBool true ]> {[ "exclude" := VList [] ]})
    "com.x" [VInt 42] ∅.

Definition publish_acknowledge : Publish :=
  mkPublish 9 {[ "acknowledge" := VBool true ]} "com.x" [VInt 42] ∅.

(** What [Accept] meets when no message arrives in time. *)
Definition no_hello : AcceptEnv :=
  mkAcceptEnv (inr "timeout waiting for message")
    (λ _ _, inr "unused") 7 None.

End Scenario.

(** ** What the further properties speak of *)

Module Obs.

(** The [Subscription] of an EVENT. *)
Definition event_subscription (m : Message) : option ID :=
  match m with
  | MEvent _ id _ _ _ => Some id
  | _ => None
  end.

(** The subscriptions of the EVENTs of a trace, in the order they were
    sent. *)
Definition event_subscriptions (sent : list (SessionRef * Message))
  : list ID :=
  omap (λ x, event_subscription x.2) sent.

(** No topic of [routes] or [options] is kept with an empty table, and no
    session with an empty set. *)
Definition pruned_broker (br : defaultBroker) : Prop :=
  Inv.pruned (routes br) ∧ Inv.pruned (options br)
  ∧ Inv.pruned_sessions (sessions br).

(** What a [Publish] owes: to a session other than the publisher that has
    a route under the topic and whose captured options agree with the
    publication's, the EVENT of that subscription; to the publisher, the
    PUBLISHED when acknowledge is the boolean [true]. *)
Definition due (pub : SessionRef) (pubID : ID) (msg : Publish)
    (br : defaultBroker) (s : SessionRef) (m : Message) : Prop :=
  (∃ id, Inv.lookup2 (routes br) (pub_Topic msg) id = Some s
         ∧ s ≠ pub
         ∧ Inv.options_agree (Inv.captured_options br (pub_Topic msg) id)
             (pub_Options msg)
         ∧ m = MEvent pubID id ∅ (pub_Arguments msg) (pub_ArgumentsKw msg))
  ∨ (s = pub ∧ m = MPublished (pub_Request msg) pubID
     ∧ pub_Options msg !! "acknowledge" = Some (VBool true)).

(** The [go] statement of [Accept] that runs the session. *)
Definition starts_session (a : Action) : bool :=
  match a with
  | AGoSession _ _ _ _ _ => true
  | _ => false
  end.

(** A WELCOME sent to a peer. *)
Definition sends_welcome (a : Action) : bool :=
  match a with
  | ASend _ (MWelcome _) => true
  | _ => false
  end.

End Obs.

(** Further brokers and routers to run the code on. *)
Module Cases.

(** Alice holds 10 on com.x and 11 on com.y, Bob holds 12 on com.x. *)
Definition three_subscriptions : list BrokerCall :=
  [CallSubscribe Scenario.alice 10 (mkSubscribe 1 ∅ "com.x");
   CallSubscribe Scenario.alice 11 (mkSubscribe 2 ∅ "com.y");
   CallSubscribe Scenario.bob 12 (mkSubscribe 3 ∅ "com.x")].

Definition busy_broker : defaultBroker :=
  Run.broker_calls three_subscriptions Broker.NewDefaultBroker.

(** A router with one realm, and what [Accept] meets when a HELLO for it
    arrives and the realm lets the peer in. *)
Definition one_realm : defaultRouter :=
  (Router.RegisterRealm "realm1" 1%positive Router.NewDefaultRouter).1.1.

Definition hello_realm1 : AcceptEnv :=
  mkAcceptEnv (inl (MHello (mkHello "realm1" ∅)))
    (λ _ _, inl (mkWelcome 0 None)) 7 None.

Definition pipe : LocalPeerEnv :=
  mkLocalPeerEnv (8%positive, 9%positive) 21.

End Cases.

(** ** Reading the maps after a write *)

Section tables.
Context {V : Type}.
Implicit Types (m : gmap URI (gmap ID V)) (topic : URI) (id : ID).

Lemma lookup2_Some m topic id v :
  Inv.lookup2 m topic id = Some v ↔
  ∃ r, m !! topic = Some r ∧ r !! id = Some v.
Proof.
  unfold Inv.lookup2. destruct (m !! topic) as [r|]; simpl.
  - split; [eauto | by intros (r' & [= <-] & ?)].
  - split; [done | by intros (r' & [=] & ?)].
Qed.

Lemma lookup2_clean_up m topic id topic' id' :
  Inv.lookup2 (Broker.clean_up topic id m) topic' id' =
    if decide (topic' = topic ∧ id' = id) then None
    else Inv.lookup2 m topic' id'.
Proof.
  unfold Broker.clean_up, Inv.lookup2.
  destruct (m !! topic) as [r|] eqn:Hr.
  - destruct (r !! id) as [v|] eqn:Hv.
    + destruct (Nat.eqb_spec (size (delete id r)) 0) as [Hsz|Hsz].
      * apply map_size_empty_iff in Hsz.
        destruct (decide (topic' = topic)) as [->|Hne].
        -- rewrite lookup_delete_eq, Hr. simpl.
           case_decide as Hd; [done|].
           assert (id' ≠ id) as Hid by naive_solver.
           by rewrite <- (lookup_delete_ne r id id'), Hsz, lookup_empty.
        -- rewrite lookup_delete_ne by done.
           by rewrite decide_False by (by intros [? _]).
      * destruct (decide (topic' = topic)) as [->|Hne].
        -- rewrite lookup_insert_eq, Hr. simpl.
           case_decide as Hd.
           ++ destruct Hd as [_ ->]. apply lookup_delete_eq.
           ++ apply lookup_delete_ne. naive_solver.
        -- rewrite lookup_insert_ne by done.
           by rewrite decide_False by (by intros [? _]).
    + case_decide as Hd; [|done].
      destruct Hd as [-> ->]. by rewrite Hr.
  - case_decide as Hd; [|done].
    destruct Hd as [-> ->]. by rewrite Hr.
Qed.

Lemma lookup2_subscribe m topic id v topic' id' :
  Inv.lookup2
    (<[topic := <[id := v]> match m !! topic with
                            | Some r => r
                            | None => ∅
                            end]> m) topic' id' =
    if decide (topic' = topic ∧ id' = id) then Some v
    else Inv.lookup2 m topic' id'.
Proof.
  unfold Inv.lookup2.
  destruct (decide (topic' = topic)) as [->|Hne].
  - rewrite lookup_insert_eq. simpl.
    case_decide as Hd.
    + destruct Hd as [_ ->]. apply lookup_insert_eq.
    + rewrite lookup_insert_ne by naive_solver.
      destruct (m !! topic); [done | apply lookup_empty].
  - rewrite lookup_insert_ne by done.
    by rewrite decide_False by (by intros [? _]).
Qed.

Lemma pruned_clean_up m topic id :
  Inv.pruned m → Inv.pruned (Broker.clean_up topic id m).
Proof.
  intros Hp topic' r'. unfold Broker.clean_up.
  destruct (m !! topic) as [r|] eqn:Hr; [|by apply Hp].
  destruct (r !! id) as [v|] eqn:Hv; [|by apply Hp].
  destruct (Nat.eqb_spec (size (delete id r)) 0) as [Hsz|Hsz].
  - intros [_ Hin]%lookup_delete_Some. by apply (Hp topic').
  - intros [[_ <-]|[_ Hin]]%lookup_insert_Some.
    + by intros ?%map_size_empty_iff.
    + by apply (Hp topic').
Qed.

Lemma pruned_subscribe m topic id v :
  Inv.pruned m →
  Inv.pruned (<[topic := <[id := v]> match m !! topic with
                                     | Some r => r
                                     | None => ∅
                                     end]> m).
Proof.
  intros Hp topic' r' [[_ <-]|[_ Hin]]%lookup_insert_Some.
  - apply insert_non_empty.
  - by apply (Hp topic').
Qed.

(** Unsubscribing what was just subscribed under a fresh id gives the
    table back. *)
Lemma clean_up_subscribe m topic id v :
  Inv.pruned m → Inv.lookup2 m topic id = None →
  Broker.clean_up topic id
    (<[topic := <[id := v]> match m !! topic with
                            | Some r => r
                            | None => ∅
                            end]> m) = m.
Proof.
  intros Hp Hfresh. unfold Broker.clean_up.
  rewrite lookup_insert_eq, lookup_insert_eq.
  unfold Inv.lookup2 in Hfresh.
  destruct (m !! topic) as [r|] eqn:Hr; simpl in Hfresh.
  - rewrite delete_insert_id by done.
    destruct (Nat.eqb_spec (size r) 0) as [Hsz|Hsz].
    + apply map_size_empty_iff in Hsz. by destruct (Hp topic r).
    + rewrite insert_insert_eq. by apply insert_id.
  - rewrite delete_insert_id by apply lookup_empty.
    rewrite map_size_empty. simpl.
    rewrite delete_insert_id; done.
Qed.
End tables.

Section holders.
Implicit Types (m : gmap SessionRef (gset ID)) (s sub : SessionRef) (id : ID).

Lemma holds_Some m s id :
  Inv.holds m s id ↔ ∃ ids, m !! s = Some ids ∧ id ∈ ids.
Proof.
  unfold Inv.holds. destruct (m !! s) as [ids|]; simpl.
  - split; [eauto | by intros (? & [= <-] & ?)].
  - split; [set_solver | by intros (? & [=] & ?)].
Qed.

Lemma holds_subscribe m sub id s id' :
  Inv.holds (<[sub := {[id]} ∪ match m !! sub with
                               | Some ids => ids
                               | None => ∅
                               end]> m) s id' ↔
  (s = sub ∧ id' = id) ∨ Inv.holds m s id'.
Proof.
  unfold Inv.holds. destruct (decide (s = sub)) as [->|Hne].
  - rewrite lookup_insert_eq. simpl.
    destruct (m !! sub); simpl; set_solver.
  - rewrite lookup_insert_ne by done. naive_solver.
Qed.

Lemma holds_clean_up_sender m sub id s id' :
  Inv.holds (Broker.clean_up_sender sub id m) s id' ↔
  Inv.holds m s id' ∧ ¬ (s = sub ∧ id' = id).
Proof.
  unfold Broker.clean_up_sender, Inv.holds.
  destruct (m !! sub) as [ids|] eqn:Hids.
  - destruct (decide (id ∈ ids)) as [Hin|Hin].
    + destruct (Nat.eqb_spec (size (ids ∖ {[id]})) 0) as [Hsz|Hsz].
      * apply size_empty_iff in Hsz.
        destruct (decide (s = sub)) as [->|Hne].
        -- rewrite lookup_delete_eq, Hids. simpl. set_solver.
        -- rewrite lookup_delete_ne by done. naive_solver.
      * destruct (decide (s = sub)) as [->|Hne].
        -- rewrite lookup_insert_eq, Hids. simpl. set_solver.
        -- rewrite lookup_insert_ne by done. naive_solver.
    + destruct (decide (s = sub)) as [->|Hne].
      * rewrite Hids. simpl. set_solver.
      * naive_solver.
  - destruct (decide (s = sub)) as [->|Hne].
    + rewrite Hids. simpl. set_solver.
    + naive_solver.
Qed.

Lemma holds_delete m sub s id :
  Inv.holds (delete sub m) s id ↔ s ≠ sub ∧ Inv.holds m s id.
Proof.
  unfold Inv.holds. destruct (decide (s = sub)) as [->|Hne].
  - rewrite lookup_delete_eq. simpl. set_solver.
  - rewrite lookup_delete_ne by done. naive_solver.
Qed.

Lemma pruned_sessions_subscribe m sub id :
  Inv.pruned_sessions m →
  Inv.pruned_sessions (<[sub := {[id]} ∪ match m !! sub with
                                         | Some ids => ids
                                         | None => ∅
                                         end]> m).
Proof.
  intros Hp s ids [[_ <-]|[_ Hin]]%lookup_insert_Some.
  - set_solver.
  - by apply (Hp s).
Qed.

Lemma pruned_sessions_clean_up_sender m sub id :
  Inv.pruned_sessions m →
  Inv.pruned_sessions (Broker.clean_up_sender sub id m).
Proof.
  intros Hp s ids'. unfold Broker.clean_up_sender.
  destruct (m !! sub) as [ids|] eqn:Hids; [|by apply Hp].
  destruct (decide (id ∈ ids)) as [Hin|Hin]; [|by apply Hp].
  destruct (Nat.eqb_spec (size (ids ∖ {[id]})) 0) as [Hsz|Hsz].
  - intros [_ Hs]%lookup_delete_Some. by apply (Hp s).
  - intros [[_ <-]|[_ Hs]]%lookup_insert_Some.
    + intros Heq. by rewrite Heq, size_empty in Hsz.
    + by apply (Hp s).
Qed.

Lemma pruned_sessions_delete m sub :
  Inv.pruned_sessions m → Inv.pruned_sessions (delete sub m).
Proof.
  intros Hp s ids [_ Hs]%lookup_delete_Some. by apply (Hp s).
Qed.

Lemma clean_up_sender_subscribe m sub id :
  Inv.pruned_sessions m → ¬ Inv.holds m sub id →
  Broker.clean_up_sender sub id
    (<[sub := {[id]} ∪ match m !! sub with
                       | Some ids => ids
                       | None => ∅
                       end]> m) = m.
Proof.
  intros Hp Hfresh. unfold Broker.clean_up_sender, Inv.holds in *.
  rewrite lookup_insert_eq.
  rewrite decide_True by set_solver.
  destruct (m !! sub) as [ids|] eqn:Hids; simpl in Hfresh.
  - assert (({[id]} ∪ ids) ∖ {[id]} = ids) as -> by set_solver.
    destruct (Nat.eqb_spec (size ids) 0) as [Hsz|Hsz].
    + apply size_empty_iff in Hsz. destruct (Hp sub ids Hids).
      by apply leibniz_equiv.
    + rewrite insert_insert_eq. by apply insert_id.
  - assert (({[id]} ∪ ∅) ∖ {[id]} = (∅ : gset ID)) as -> by set_solver.
    rewrite size_empty. simpl. by rewrite delete_insert_id.
Qed.
End holders.

(** ** The loop of RemoveSubscriber *)

Section remove_loop.
Implicit Types (br : defaultBroker) (ids : list ID) (id : ID) (topic : URI).

Lemma remove_subscription_sessions br id :
  sessions (Broker.remove_subscription br id) = sessions br.
Proof.
  unfold Broker.remove_subscription.
  by destruct (subscriptions br !! id).
Qed.

Lemma remove_subscription_subscriptions br id id' :
  subscriptions (Broker.remove_subscription br id) !! id' =
    if decide (id' = id) then None else subscriptions br !! id'.
Proof.
  unfold Broker.remove_subscription.
  destruct (subscriptions br !! id) as [topic|] eqn:Hid; simpl.
  - case_decide as Hd; [subst; apply lookup_delete_eq|].
    by apply lookup_delete_ne.
  - case_decide as Hd; [by subst | done].
Qed.

Lemma remove_subscription_routes br id topic' id' :
  Inv.lookup2 (routes (Broker.remove_subscription br id)) topic' id' =
    if decide (id' = id ∧ subscriptions br !! id = Some topic') then None
    else Inv.lookup2 (routes br) topic' id'.
Proof.
  unfold Broker.remove_subscription.
  destruct (subscriptions br !! id) as [topic|] eqn:Hid; simpl.
  - rewrite lookup2_clean_up.
    destruct (decide (topic' = topic ∧ id' = id)) as [[-> ->]|Hd].
    + by rewrite decide_True.
    + rewrite decide_False; [done|]. intros [-> [= ->]]. by apply Hd.
  - rewrite decide_False; [done|]. by intros [_ [=]].
Qed.

Lemma remove_subscription_options br id topic' id' :
  Inv.lookup2 (options (Broker.remove_subscription br id)) topic' id' =
    if decide (id' = id ∧ subscriptions br !! id = Some topic') then None
    else Inv.lookup2 (options br) topic' id'.
Proof.
  unfold Broker.remove_subscription.
  destruct (subscriptions br !! id) as [topic|] eqn:Hid; simpl.
  - rewrite lookup2_clean_up.
    destruct (decide (topic' = topic ∧ id' = id)) as [[-> ->]|Hd].
    + by rewrite decide_True.
    + rewrite decide_False; [done|]. intros [-> [= ->]]. by apply Hd.
  - rewrite decide_False; [done|]. by intros [_ [=]].
Qed.

Lemma remove_subscription_pruned br id :
  Inv.pruned (routes br) → Inv.pruned (options br) →
  Inv.pruned (routes (Broker.remove_subscription br id))
  ∧ Inv.pruned (options (Broker.remove_subscription br id)).
Proof.
  intros Hr Ho. unfold Broker.remove_subscription.
  destruct (subscriptions br !! id); simpl; [|done].
  split; by apply pruned_clean_up.
Qed.

Lemma remove_subscriptions_sessions ids br :
  sessions (Broker.remove_subscriptions ids br) = sessions br.
Proof.
  revert br. induction ids as [|a ids IH]; intros br; [done|].
  unfold Broker.remove_subscriptions in *. simpl.
  by rewrite IH, remove_subscription_sessions.
Qed.

Lemma remove_subscriptions_subscriptions ids br id topic :
  subscriptions (Broker.remove_subscriptions ids br) !! id = Some topic ↔
  (id ∉ ids) ∧ subscriptions br !! id = Some topic.
Proof.
  revert br. induction ids as [|a ids IH]; intros br.
  - split; [intros ?; split; [apply not_elem_of_nil|done] | by intros [_ ?]].
  - unfold Broker.remove_subscriptions in *. simpl.
    rewrite IH, remove_subscription_subscriptions, not_elem_of_cons.
    case_decide; naive_solver.
Qed.

Lemma remove_subscriptions_routes ids br topic id s :
  Inv.lookup2 (routes (Broker.remove_subscriptions ids br)) topic id = Some s
  ↔ Inv.lookup2 (routes br) topic id = Some s
    ∧ ¬ (id ∈ ids ∧ subscriptions br !! id = Some topic).
Proof.
  revert br. induction ids as [|a ids IH]; intros br.
  - split; [intros ?; split; [done|] | by intros [? _]].
    intros [[]%not_elem_of_nil _].
  - unfold Broker.remove_subscriptions in *. simpl.
    rewrite IH, remove_subscription_routes,
      remove_subscription_subscriptions, elem_of_cons.
    repeat case_decide; naive_solver.
Qed.

Lemma remove_subscriptions_options ids br topic id d :
  Inv.lookup2 (options (Broker.remove_subscriptions ids br)) topic id = Some d
  ↔ Inv.lookup2 (options br) topic id = Some d
    ∧ ¬ (id ∈ ids ∧ subscriptions br !! id = Some topic).
Proof.
  revert br. induction ids as [|a ids IH]; intros br.
  - split; [intros ?; split; [done|] | by intros [? _]].
    intros [[]%not_elem_of_nil _].
  - unfold Broker.remove_subscriptions in *. simpl.
    rewrite IH, remove_subscription_options,
      remove_subscription_subscriptions, elem_of_cons.
    repeat case_decide; naive_solver.
Qed.

Lemma remove_subscriptions_pruned ids br :
  Inv.pruned (routes br) → Inv.pruned (options br) →
  Inv.pruned (routes (Broker.remove_subscriptions ids br))
  ∧ Inv.pruned (options (Broker.remove_subscriptions ids br)).
Proof.
  revert br. induction ids as [|a ids IH]; intros br Hr Ho; [done|].
  unfold Broker.remove_subscriptions in *. simpl.
  destruct (remove_subscription_pruned br a Hr Ho). by apply IH.
Qed.
End remove_loop.

(** ** The order of the range in RemoveSubscriber *)

Section range_order.
Context {V : Type}.
Implicit Types (m : gmap URI (gmap ID V)) (r : gmap ID V) (topic : URI)
  (id : ID).

Lemma lookup_clean_up m topic id topic' :
  Broker.clean_up topic id m !! topic' =
    if decide (topic' = topic) then m !! topic ≫= Inv.clean_table id
    else m !! topic'.
Proof.
  unfold Broker.clean_up, Inv.clean_table.
  destruct (m !! topic) as [r|] eqn:Hr; simpl.
  - destruct (r !! id) as [v|] eqn:Hv.
    + destruct (Nat.eqb (size (delete id r)) 0).
      * case_decide as Hd; [subst; apply lookup_delete_eq|].
        by apply lookup_delete_ne.
      * case_decide as Hd; [subst; apply lookup_insert_eq|].
        by apply lookup_insert_ne.
    + case_decide as Hd; [by subst | done].
  - case_decide as Hd; [by subst | done].
Qed.

Lemma clean_table_comm r id1 id2 :
  Inv.clean_table id1 r ≫= Inv.clean_table id2 = Inv.clean_table id2 r ≫= Inv.clean_table id1.
Proof.
  destruct (decide (id1 = id2)) as [->|Hne]; [done|].
  assert (∀ a b, a ≠ b → is_Some (r !! a) →
            Nat.eqb (size (delete b r)) 0 = false) as Hkeep.
  { intros a b Hab [v Hv]. apply Nat.eqb_neq. intros Hsz%map_size_empty_iff.
    assert (delete b r !! a = Some v) as Hl by by rewrite lookup_delete_ne.
    by rewrite Hsz, lookup_empty in Hl. }
  unfold Inv.clean_table.
  destruct (r !! id1) as [v1|] eqn:H1, (r !! id2) as [v2|] eqn:H2; simpl.
  - rewrite (Hkeep id2 id1), (Hkeep id1 id2) by (done || by eauto). simpl.
    rewrite !lookup_delete_ne, H1, H2 by done.
    by rewrite (delete_delete r id1 id2).
  - destruct (Nat.eqb (size (delete id1 r)) 0); simpl;
      by rewrite ?lookup_delete_ne, ?H1, ?H2.
  - rewrite H2.
    destruct (Nat.eqb (size (delete id2 r)) 0); simpl; [done|].
    by rewrite lookup_delete_ne, H1.
  - by rewrite H1, H2.
Qed.

Lemma clean_up_comm m topic1 id1 topic2 id2 :
  Broker.clean_up topic1 id1 (Broker.clean_up topic2 id2 m)
  = Broker.clean_up topic2 id2 (Broker.clean_up topic1 id1 m).
Proof.
  apply map_eq. intros topic. rewrite !lookup_clean_up.
  destruct (decide (topic1 = topic2)) as [->|Hne];
    repeat case_decide; simplify_eq; try done.
  match goal with |- context [m !! ?t] => destruct (m !! t) as [r|] end;
    simpl; [apply clean_table_comm | done].
Qed.
End range_order.

Lemma remove_subscription_comm (br : defaultBroker) (id1 id2 : ID) :
  Broker.remove_subscription (Broker.remove_subscription br id1) id2
  = Broker.remove_subscription (Broker.remove_subscription br id2) id1.
Proof.
  destruct (decide (id1 = id2)) as [->|Hne]; [done|].
  unfold Broker.remove_subscription.
  destruct (subscriptions br !! id1) as [topic1|] eqn:H1,
    (subscriptions br !! id2) as [topic2|] eqn:H2; simpl;
    rewrite ?lookup_delete_ne, ?H1, ?H2 by done; try done.
  f_equal; [apply clean_up_comm.. | apply delete_delete].
Qed.

(** Whatever order the range of [RemoveSubscriber] visits the ids of the
    session in, the broker it leaves is the same. *)
Lemma remove_subscriptions_Permutation (ids1 ids2 : list ID)
    (br : defaultBroker) :
  ids1 ≡ₚ ids2 →
  Broker.remove_subscriptions ids1 br = Broker.remove_subscriptions ids2 br.
Proof.
  unfold Broker.remove_subscriptions.
  intros Hp. revert br.
  induction Hp as [|x l1 l2 _ IH|x y l|l1 l2 l3 _ IH1 _ IH2]; intros br;
    simpl.
  - done.
  - apply IH.
  - by rewrite remove_subscription_comm.
  - by rewrite IH1.
Qed.

(** X7: the broker [RemoveSubscriber] leaves does not depend on the order
    in which its range visits the ids of the session: running the body of
    the loop over any ordering of sessions[sub] gives the same four maps. *)
Lemma RemoveSubscriber_any_order (sub : SessionRef) (br : defaultBroker)
    (ids : list ID) :
  ids ≡ₚ elements (default ∅ (sessions br !! sub)) →
  (Broker.RemoveSubscriber sub br).1 =
    mkBroker (options (Broker.remove_subscriptions ids br))
             (routes (Broker.remove_subscriptions ids br))
             (subscriptions (Broker.remove_subscriptions ids br))
             (delete sub (sessions (Broker.remove_subscriptions ids br))).
Proof.
  intros Hp. unfold Broker.RemoveSubscriber. simpl.
  by rewrite (remove_subscriptions_Permutation _ _ br Hp).
Qed.

(** ** The consistency invariant *)

Section consistency.
Implicit Types (br : defaultBroker) (id : ID) (sub : SessionRef).

Lemma anchored_consistent br : Inv.anchored br ↔ Inv.consistent br.
Proof.
  unfold Inv.anchored, Inv.consistent, Inv.consistent_at,
    Inv.in_sessions_of_route, Inv.route_of, Inv.options_of.
  split.
  - intros Ha id. destruct (subscriptions br !! id) as [topic|] eqn:Hid.
    + destruct (Ha id topic Hid) as (s & Hs & Ho & Hh). simpl.
      rewrite Hs. naive_solver.
    + simpl. split_and!; split;
        first [by intros [? [=]] | by intros []].
  - intros Hc id topic Hid. destruct (Hc id) as (H1 & H2 & H3).
    rewrite Hid in H1, H2, H3. simpl in *.
    destruct (Inv.lookup2 (routes br) topic id) as [s|] eqn:Hs.
    + exists s. split; [done|]. split; [by apply H2 | apply H3, H2; eauto].
    + destruct H1 as [H1 _]. by destruct H1 as [? [=]].
Qed.

Lemma anchored_NewDefaultBroker : Inv.anchored Broker.NewDefaultBroker.
Proof. intros id topic. simpl. by rewrite lookup_empty. Qed.

Lemma anchored_Subscribe sub id msg br :
  Inv.anchored br → Inv.anchored (Broker.Subscribe sub id msg br).1.
Proof.
  intros Ha id' topic'. simpl.
  intros [[<- <-]|[Hne Hid]]%lookup_insert_Some.
  - exists sub. rewrite !lookup2_subscribe, !decide_True by done.
    split; [done|]. split; [eauto|]. apply holds_subscribe. by left.
  - destruct (Ha id' topic' Hid) as (s & Hs & Ho & Hh).
    exists s. rewrite !lookup2_subscribe, !decide_False by naive_solver.
    split; [done|]. split; [done|]. apply holds_subscribe. by right.
Qed.

Lemma anchored_Unsubscribe sub msg br :
  Inv.anchored br → Inv.anchored (Broker.Unsubscribe sub msg br).1.
Proof.
  intros Ha. unfold Broker.Unsubscribe.
  destruct (subscriptions br !! unsub_Subscription msg) as [topic|] eqn:Hl;
    [|done].
  intros id' topic'. simpl. intros [Hne Hid]%lookup_delete_Some.
  destruct (Ha id' topic' Hid) as (s & Hs & Ho & Hh).
  exists s. rewrite !lookup2_clean_up, !decide_False by naive_solver.
  split; [done|]. split; [done|]. apply holds_clean_up_sender. naive_solver.
Qed.

Lemma anchored_RemoveSubscriber sub br :
  Inv.anchored br → Inv.anchored (Broker.RemoveSubscriber sub br).1.
Proof.
  intros Ha id' topic'. simpl.
  intros [Hnin Hid]%remove_subscriptions_subscriptions.
  destruct (Ha id' topic' Hid) as (s & Hs & [d Ho] & Hh).
  exists s. split; [|split].
  - apply remove_subscriptions_routes. naive_solver.
  - exists d. apply remove_subscriptions_options. naive_solver.
  - rewrite remove_subscriptions_sessions. apply holds_delete.
    split; [|done]. intros ->. apply Hnin, elem_of_elements, Hh.
Qed.

Lemma anchored_broker_call br c :
  Inv.anchored br → Inv.anchored (Run.broker_call br c).
Proof.
  intros Ha. destruct c as [sub id msg|sub msg|sub]; unfold Run.broker_call.
  - by apply anchored_Subscribe.
  - by apply anchored_Unsubscribe.
  - by apply anchored_RemoveSubscriber.
Qed.

Lemma anchored_broker_trace cs br :
  Inv.anchored br → Forall Inv.anchored (Run.broker_trace cs br).
Proof.
  revert br. induction cs as [|c cs IH]; intros br Ha; simpl.
  - constructor.
  - constructor; [|apply IH]; by apply anchored_broker_call.
Qed.
End consistency.

(** ** Brokers built with ids handed out once *)

Section well_formed.
Implicit Types (br : defaultBroker) (id : ID) (sub : SessionRef)
  (used : gset ID).

Lemma wf_NewDefaultBroker : Inv.wf ∅ Broker.NewDefaultBroker.
Proof.
  split; simpl; unfold Inv.lookup2, Inv.holds, Inv.pruned,
    Inv.pruned_sessions; intros *; rewrite ?lookup_empty; simpl;
    try done; set_solver.
Qed.

(** An id that was never handed out occurs nowhere. *)
Lemma wf_fresh used br id :
  Inv.wf used br → id ∉ used →
  subscriptions br !! id = None
  ∧ (∀ topic, Inv.lookup2 (routes br) topic id = None)
  ∧ (∀ topic, Inv.lookup2 (options br) topic id = None)
  ∧ (∀ s, ¬ Inv.holds (sessions br) s id).
Proof.
  intros Hwf Hfresh.
  assert (∀ s, ¬ Inv.holds (sessions br) s id) as Hh.
  { intros s Hs. by apply Hfresh, (Inv.wf_used _ _ Hwf s). }
  assert (∀ topic, Inv.lookup2 (routes br) topic id = None) as Hr.
  { intros topic. apply eq_None_not_Some. intros [s Hs].
    destruct (Inv.wf_routes _ _ Hwf _ _ _ Hs) as [_ ?]. by apply (Hh s). }
  assert (subscriptions br !! id = None) as Hs.
  { apply eq_None_not_Some. intros [topic Ht].
    destruct (Inv.wf_subscriptions _ _ Hwf _ _ Ht) as [[s Hs] _].
    by rewrite Hr in Hs. }
  split_and!; try done.
  intros topic. apply eq_None_not_Some. intros [d Hd].
  by rewrite (Inv.wf_options _ _ Hwf _ _ _ Hd) in Hs.
Qed.

Lemma wf_Subscribe used sub id msg br :
  Inv.wf used br → id ∉ used →
  Inv.wf ({[id]} ∪ used) (Broker.Subscribe sub id msg br).1.
Proof.
  intros Hwf Hfresh.
  destruct (wf_fresh _ _ _ Hwf Hfresh) as (Hs & Hr & Ho & Hh).
  split; simpl.
  - intros topic' id' s. rewrite lookup2_subscribe, holds_subscribe.
    case_decide as Hd.
    + destruct Hd as [-> ->]. intros [= <-].
      by rewrite lookup_insert_eq; auto.
    + intros Hl. destruct (Inv.wf_routes _ _ Hwf _ _ _ Hl) as [H1 H2].
      rewrite lookup_insert_ne; [auto|].
      intros <-. by rewrite Hr in Hl.
  - intros topic' id' d. rewrite lookup2_subscribe.
    case_decide as Hd.
    + destruct Hd as [-> ->]. intros _. apply lookup_insert_eq.
    + intros Hl. rewrite lookup_insert_ne; [by eapply Inv.wf_options|].
      intros <-. by rewrite Ho in Hl.
  - intros id' topic'. rewrite !lookup2_subscribe.
    intros [[<- <-]|[Hne Hl]]%lookup_insert_Some.
    + rewrite !decide_True by done. eauto.
    + rewrite !decide_False by naive_solver.
      by apply (Inv.wf_subscriptions _ _ Hwf).
  - intros s id'. rewrite holds_subscribe. intros [[_ ->]|Hl].
    + set_solver.
    + apply elem_of_union_r. by eapply Inv.wf_used.
  - intros s s' id'. rewrite !holds_subscribe.
    intros [[-> ->]|H1] [[-> ?]|H2]; try done.
    + by destruct (Hh s').
    + subst. by destruct (Hh s).
    + by eapply Inv.wf_one_holder.
  - apply pruned_subscribe, Hwf.
  - apply pruned_subscribe, Hwf.
  - apply pruned_sessions_subscribe, Hwf.
Qed.

Lemma wf_Unsubscribe used sub msg br :
  Inv.wf used br → Inv.wf used (Broker.Unsubscribe sub msg br).1.
Proof.
  intros Hwf. unfold Broker.Unsubscribe.
  destruct (subscriptions br !! unsub_Subscription msg) as [topic|] eqn:Hl;
    [|done].
  set (id := unsub_Subscription msg) in *.
  split; simpl.
  - intros topic' id' s. rewrite lookup2_clean_up, holds_clean_up_sender.
    case_decide as Hd; [done|]. intros Hr.
    destruct (Inv.wf_routes _ _ Hwf _ _ _ Hr) as [H1 H2].
    assert (id' ≠ id) by (intros ->; naive_solver).
    rewrite lookup_delete_ne by done. naive_solver.
  - intros topic' id' d. rewrite lookup2_clean_up.
    case_decide as Hd; [done|]. intros Ho.
    pose proof (Inv.wf_options _ _ Hwf _ _ _ Ho) as H1.
    assert (id' ≠ id) by (intros ->; naive_solver).
    by rewrite lookup_delete_ne.
  - intros id' topic' [Hne Hs]%lookup_delete_Some.
    rewrite !lookup2_clean_up, !decide_False by naive_solver.
    by apply (Inv.wf_subscriptions _ _ Hwf).
  - intros s id' [Hh _]%holds_clean_up_sender. by eapply Inv.wf_used.
  - intros s s' id' [H1 _]%holds_clean_up_sender
      [H2 _]%holds_clean_up_sender.
    by eapply Inv.wf_one_holder.
  - apply pruned_clean_up, Hwf.
  - apply pruned_clean_up, Hwf.
  - apply pruned_sessions_clean_up_sender, Hwf.
Qed.

Lemma wf_RemoveSubscriber used sub br :
  Inv.wf used br → Inv.wf used (Broker.RemoveSubscriber sub br).1.
Proof.
  intros Hwf.
  destruct (remove_subscriptions_pruned
              (elements (default ∅ (sessions br !! sub))) br)
    as [Hpr Hpo]; [apply Hwf..|].
  split; simpl; try done.
  - intros topic' id' s [Hr Hnot]%remove_subscriptions_routes.
    destruct (Inv.wf_routes _ _ Hwf _ _ _ Hr) as [H1 H2].
    assert (id' ∉ elements (default ∅ (sessions br !! sub))) as Hnin
      by naive_solver.
    split.
    + by apply remove_subscriptions_subscriptions.
    + rewrite remove_subscriptions_sessions. apply holds_delete.
      split; [|done]. intros ->. by apply Hnin, elem_of_elements.
  - intros topic' id' d [Ho Hnot]%remove_subscriptions_options.
    pose proof (Inv.wf_options _ _ Hwf _ _ _ Ho) as H1.
    apply remove_subscriptions_subscriptions. naive_solver.
  - intros id' topic' [Hnin Hs]%remove_subscriptions_subscriptions.
    destruct (Inv.wf_subscriptions _ _ Hwf _ _ Hs) as [[s Hr] [d Ho]].
    split.
    + exists s. apply remove_subscriptions_routes. naive_solver.
    + exists d. apply remove_subscriptions_options. naive_solver.
  - intros s id'. rewrite remove_subscriptions_sessions.
    intros [_ Hh]%holds_delete. by eapply Inv.wf_used.
  - intros s s' id'. rewrite remove_subscriptions_sessions.
    intros [_ H1]%holds_delete [_ H2]%holds_delete.
    by eapply Inv.wf_one_holder.
  - rewrite remove_subscriptions_sessions.
    apply pruned_sessions_delete, Hwf.
Qed.

Lemma wf_mono used used' br :
  used ⊆ used' → Inv.wf used br → Inv.wf used' br.
Proof.
  intros Hsub Hwf. split; try apply Hwf.
  intros s id Hh. by eapply Hsub, Inv.wf_used.
Qed.

Lemma wf_broker_calls cs used br :
  Inv.wf used br → NoDup (Run.minted cs) →
  (∀ id, id ∈ Run.minted cs → id ∉ used) →
  Inv.wf (list_to_set (Run.minted cs) ∪ used) (Run.broker_calls cs br).
Proof.
  revert used br. induction cs as [|c cs IH]; intros used br Hwf Hnd Hfresh.
  - simpl. eapply wf_mono; [|done]. set_solver.
  - unfold Run.broker_calls in *.
    destruct c as [sub id msg|sub msg|sub]; simpl in *.
    + apply NoDup_cons in Hnd as [Hnin Hnd].
      eapply wf_mono;
        [|apply (IH ({[id]} ∪ used)); [apply wf_Subscribe| |]]; try done.
      * set_solver.
      * apply Hfresh. by left.
      * intros id' Hin. pose proof (Hfresh id' ltac:(by right)).
        set_solver.
    + apply IH; [by apply wf_Unsubscribe|done..].
    + apply IH; [by apply wf_RemoveSubscriber|done..].
Qed.

Lemma wf_reachable_calls cs :
  Inv.unique_ids cs →
  Inv.wf (list_to_set (Run.minted cs))
    (Run.broker_calls cs Broker.NewDefaultBroker).
Proof.
  intros Hnd. eapply wf_mono;
    [|apply (wf_broker_calls cs ∅); [apply wf_NewDefaultBroker|done|]].
  - set_solver.
  - set_solver.
Qed.

Lemma wf_reachable br : Inv.reachable br → ∃ used, Inv.wf used br.
Proof.
  intros (cs & Hnd & ->). eexists. by apply wf_reachable_calls.
Qed.
End well_formed.

(** ** The fan-out of Publish *)

Section publish.
Implicit Types (br : defaultBroker) (pub sub : SessionRef) (id : ID)
  (subOptions : Dict) (pubOptions : list (string * Value)).

Lemma match_options_Deliver subOptions pubOptions :
  Broker.match_options subOptions pubOptions = Deliver ↔
  ∀ key subValue pubValue,
    (key, pubValue) ∈ pubOptions → subOptions !! key = Some subValue →
    iface_neq subValue pubValue = Some false.
Proof.
  induction pubOptions as [|[k pv] rest IH]; simpl.
  - split; [|done]. by intros _ ??? ?%elem_of_nil.
  - destruct (subOptions !! k) as [sv|] eqn:Hk.
    + destruct (iface_neq sv pv) as [[]|] eqn:Hne.
      * split; [done|]. intros H.
        by rewrite (H k sv pv ltac:(left) Hk) in Hne.
      * rewrite IH. split.
        -- intros H key subValue pubValue [[= -> ->]|Hin]%elem_of_cons Hs.
           ++ by simplify_eq.
           ++ by eapply H.
        -- intros H key subValue pubValue Hin. apply H. by right.
      * split; [done|]. intros H.
        by rewrite (H k sv pv ltac:(left) Hk) in Hne.
    + rewrite IH. split.
      * intros H key subValue pubValue [[= -> ->]|Hin]%elem_of_cons Hs.
        -- by simplify_eq.
        -- by eapply H.
      * intros H key subValue pubValue Hin. apply H. by right.
Qed.

Lemma match_options_Panic subOptions pubOptions :
  Broker.match_options subOptions pubOptions = Panic →
  ∃ key subValue pubValue,
    (key, pubValue) ∈ pubOptions ∧ subOptions !! key = Some subValue
    ∧ iface_neq subValue pubValue = None.
Proof.
  induction pubOptions as [|[k pv] rest IH]; simpl; [done|].
  destruct (subOptions !! k) as [sv|] eqn:Hk.
  - destruct (iface_neq sv pv) as [[]|] eqn:Hne; [done| |].
    + intros (key & sv' & pv' & ? & ?)%IH.
      exists key, sv', pv'. split; [by right | done].
    + intros _. exists k, sv, pv. split; [by left | done].
  - intros (key & sv' & pv' & ? & ?)%IH.
    exists key, sv', pv'. split; [by right | done].
Qed.

Lemma fanout_Returned pub event topicOptions pubOptions entries :
  (∀ id sub, (id, sub) ∈ entries → sub ≠ pub →
     Broker.match_options (default ∅ (topicOptions !! id)) pubOptions
     ≠ Panic) →
  (Broker.fanout pub event topicOptions pubOptions entries).2 = Returned.
Proof.
  induction entries as [|[id sub] rest IH]; simpl; intros Hok; [done|].
  assert ((Broker.fanout pub event topicOptions pubOptions rest).2
          = Returned) as Hrest.
  { apply IH. intros id' sub' Hin. apply Hok. by right. }
  case_decide as Hd; [done|].
  pose proof (Hok id sub ltac:(left) Hd) as Hnp.
  destruct (Broker.match_options _ pubOptions); [|done|done].
  by destruct (Broker.fanout pub event topicOptions pubOptions rest).
Qed.

Lemma fanout_sent pub event topicOptions pubOptions entries s m :
  (Broker.fanout pub event topicOptions pubOptions entries).2 = Returned →
  (s, m) ∈ (Broker.fanout pub event topicOptions pubOptions entries).1 ↔
  ∃ id, (id, s) ∈ entries ∧ s ≠ pub
        ∧ Broker.match_options (default ∅ (topicOptions !! id)) pubOptions
          = Deliver
        ∧ m = event id.
Proof.
  induction entries as [|[id sub] rest IH]; simpl.
  - intros _. split; [by intros ?%elem_of_nil|].
    by intros (? & ?%elem_of_nil & _).
  - case_decide as Hd.
    + intros Hret. rewrite (IH Hret). split.
      * intros (id' & ? & ?). exists id'. split; [by right | done].
      * intros (id' & [[= -> ->]|?]%elem_of_cons & Hne & ?); [done|].
        by exists id'.
    + destruct (Broker.match_options (default ∅ (topicOptions !! id))
                  pubOptions) eqn:Hm.
      * destruct (Broker.fanout pub event topicOptions pubOptions rest)
          as [sent out] eqn:Hf. simpl in *.
        intros Hret. rewrite elem_of_cons, (IH Hret). split.
        -- intros [[= -> ->]|(id' & ? & ?)].
           ++ exists id. split; [by left | done].
           ++ exists id'. split; [by right | done].
        -- intros (id' & [[= -> ->]|?]%elem_of_cons & Hne & Hm' & ->).
           ++ by left.
           ++ right. by exists id'.
      * intros Hret. rewrite (IH Hret). split.
        -- intros (id' & ? & ?). exists id'. split; [by right | done].
        -- intros (id' & [[= -> ->]|?]%elem_of_cons & Hne & Hm' & ?).
           ++ by rewrite Hm in Hm'.
           ++ by exists id'.
      * done.
Qed.



Lemma acknowledge_true (opts : Dict) :
  Broker.acknowledge opts = true ↔ opts !! "acknowledge" = Some (VBool true).
Proof.
  unfold Broker.acknowledge.
  destruct (opts !! "acknowledge") as [[| [] | | | | | |]|];
    split; congruence.
Qed.

(** When no subscriber's options share with the publication's a key that
    holds two slices or two maps, [Publish] returns; the events it has
    sent are one for each route of the topic to a session other than the
    publisher whose captured options agree with the publication's, and
    the PUBLISHED follows them when acknowledge is [true]. *)
Lemma Publish_returns pub pubID msg br :
  (∀ id sub,
     Inv.lookup2 (routes br) (pub_Topic msg) id = Some sub → sub ≠ pub →
     Inv.options_comparable
       (Inv.captured_options br (pub_Topic msg) id) (pub_Options msg)) →
  ∃ events,
    Broker.Publish pub pubID msg br =
      (br,
       (events ++
          (if Broker.acknowledge (pub_Options msg)
           then [(pub, MPublished (pub_Request msg) pubID)] else []),
        Returned))
    ∧ ∀ s m,
        (s, m) ∈ events ↔
        ∃ id, Inv.lookup2 (routes br) (pub_Topic msg) id = Some s
              ∧ s ≠ pub
              ∧ Inv.options_agree
                  (Inv.captured_options br (pub_Topic msg) id)
                  (pub_Options msg)
              ∧ m = MEvent pubID id ∅ (pub_Arguments msg)
                      (pub_ArgumentsKw msg).
Proof.
  intros Hcmp. unfold Broker.Publish.
  set (event := λ id : ID,
         MEvent pubID id ∅ (pub_Arguments msg) (pub_ArgumentsKw msg)).
  set (topicOptions := default ∅ (options br !! pub_Topic msg)).
  set (entries := map_to_list (default ∅ (routes br !! pub_Topic msg))).
  set (pubOptions := map_to_list (pub_Options msg)).
  assert (∀ id s, (id, s) ∈ entries ↔
            Inv.lookup2 (routes br) (pub_Topic msg) id = Some s) as Hent.
  { intros id s. unfold entries, Inv.lookup2.
    rewrite elem_of_map_to_list.
    destruct (routes br !! pub_Topic msg); simpl; [done|].
    by rewrite lookup_empty. }
  assert (∀ id, default ∅ (topicOptions !! id)
                = Inv.captured_options br (pub_Topic msg) id) as Hcap.
  { intros id. unfold topicOptions, Inv.captured_options, Inv.lookup2.
    destruct (options br !! pub_Topic msg); simpl; [done|].
    by rewrite lookup_empty. }
  assert ((Broker.fanout pub event topicOptions pubOptions entries).2
          = Returned) as Hret.
  { apply fanout_Returned. intros id sub Hin%Hent Hne Hp.
    apply match_options_Panic in Hp as (k & sv & pv & Hk & Hs & Hnone).
    rewrite Hcap in Hs. apply elem_of_map_to_list in Hk.
    destruct (Hcmp id sub Hin Hne k sv pv Hs Hk) as [b Hb]. congruence. }
  pose proof (λ s m, fanout_sent pub event topicOptions pubOptions
                       entries s m Hret) as Hsent.
  destruct (Broker.fanout pub event topicOptions pubOptions entries)
    as [sent out]. simpl in Hret, Hsent. subst out.
  exists sent. split.
  - destruct (Broker.acknowledge (pub_Options msg)); [done|].
    by rewrite app_nil_r.
  - intros s m. rewrite Hsent. apply exist_proper. intros id.
    rewrite Hent, Hcap, match_options_Deliver.
    unfold Inv.options_agree, pubOptions.
    split; intros (? & ? & H & ?); split_and!; try done.
    + intros k sv pv Hs Hk. eapply H; [|done].
      by apply elem_of_map_to_list.
    + intros k sv pv Hk Hs. eapply H; [done|].
      by apply elem_of_map_to_list.
Qed.
End publish.

(** ** Sequences of calls *)

Lemma minted_app (cs1 cs2 : list BrokerCall) :
  Run.minted (cs1 ++ cs2) = Run.minted cs1 ++ Run.minted cs2.
Proof.
  induction cs1 as [|[sub id msg|sub msg|sub] cs1 IH]; simpl; [done|..];
    by rewrite IH.
Qed.

Lemma broker_calls_app (cs1 cs2 : list BrokerCall) (br : defaultBroker) :
  Run.broker_calls (cs1 ++ cs2) br
  = Run.broker_calls cs2 (Run.broker_calls cs1 br).
Proof. apply foldl_app. Qed.

(** The states of the trace are the states the prefixes of the sequence
    lead to. *)
Lemma broker_trace_lookup (cs : list BrokerCall) (br : defaultBroker) (i : nat) :
  i < length cs →
  Run.broker_trace cs br !! i = Some (Run.broker_calls (take (S i) cs) br).
Proof.
  revert br i. induction cs as [|c cs IH]; intros br i Hi; simpl in *; [lia|].
  destruct i as [|i]; simpl.
  - done.
  - apply IH. lia.
Qed.

(** A call that hands out another id adds no route for [id]. *)
Lemma routes_persist (c : BrokerCall) (br : defaultBroker)
    (topic : URI) (id : ID) (s : SessionRef) :
  id ∉ Run.minted [c] →
  Inv.lookup2 (routes (Run.broker_call br c)) topic id = Some s →
  Inv.lookup2 (routes br) topic id = Some s.
Proof.
  destruct c as [sub id' msg|sub msg|sub]; simpl; intros Hnew.
  - rewrite lookup2_subscribe. case_decide as Hd; [|done].
    destruct Hd as [_ ->]. set_solver.
  - unfold Broker.Unsubscribe.
    destruct (subscriptions br !! unsub_Subscription msg); simpl; [|done].
    rewrite lookup2_clean_up. by case_decide.
  - by intros [? _]%remove_subscriptions_routes.
Qed.

Lemma routes_persist_calls (cs : list BrokerCall) (br : defaultBroker)
    (topic : URI) (id : ID) (s : SessionRef) :
  id ∉ Run.minted cs →
  Inv.lookup2 (routes (Run.broker_calls cs br)) topic id = Some s →
  Inv.lookup2 (routes br) topic id = Some s.
Proof.
  revert br. induction cs as [|c cs IH]; intros br Hnew; [done|].
  change (c :: cs) with ([c] ++ cs) in Hnew.
  rewrite minted_app in Hnew. apply not_elem_of_app in Hnew as [Hc Hcs].
  unfold Run.broker_calls in *. simpl. intros Hl%IH; [|done].
  by apply (routes_persist c).
Qed.

(** ** The claims about the broker *)

(** C1: whatever sequence of [Subscribe], [Unsubscribe] and
    [RemoveSubscriber] calls is run on the new broker, with whatever
    sessions (the requester of an [Unsubscribe] need not be the subscriber)
    and whatever ids, the broker left by each call is consistent: for every
    id, id is a key of [subscriptions] iff routes[subscriptions[id]][id]
    exists, iff options[subscriptions[id]][id] exists, iff id is in
    sessions[routes[subscriptions[id]][id]]. *)
Theorem broker_calls_consistent (cs : list BrokerCall) :
  Forall Inv.consistent (Run.broker_trace cs Broker.NewDefaultBroker).
Proof.
  eapply Forall_impl.
  - apply anchored_broker_trace, anchored_NewDefaultBroker.
  - intros br. apply anchored_consistent.
Qed.

(** C4: on a broker reached with ids handed out once each, a [Subscribe]
    of session [s] that is handed a fresh [id], followed at once by the
    [Unsubscribe] of [id] by the same [s], leaves the broker it started
    from: all four maps are as before. *)
Theorem Subscribe_Unsubscribe_restores (cs : list BrokerCall)
    (s : SessionRef) (id : ID) (msg : Subscribe) (request : ID) :
  Inv.unique_ids cs → id ∉ Run.minted cs →
  let B := Run.broker_calls cs Broker.NewDefaultBroker in
  (Broker.Unsubscribe s (mkUnsubscribe request id)
     (Broker.Subscribe s id msg B).1).1 = B.
Proof.
  intros Hu Hfresh B.
  pose proof (wf_reachable_calls cs Hu) as Hwf. fold B in Hwf.
  destruct (wf_fresh _ B id Hwf) as (Hs & Hr & Ho & Hh); [set_solver|].
  unfold Broker.Unsubscribe, Broker.Subscribe. simpl.
  rewrite lookup_insert_eq. simpl.
  rewrite !clean_up_subscribe, clean_up_sender_subscribe, delete_insert_id;
    try done; try apply Hwf.
  by destruct B.
Qed.

Lemma Subscribe_Unsubscribe_restores_witness :
  let cs := [CallSubscribe Scenario.alice 10 (mkSubscribe 1 ∅ "com.x");
             CallUnsubscribe Scenario.bob (mkUnsubscribe 2 10)] in
  let B := Run.broker_calls cs Broker.NewDefaultBroker in
  (Broker.Unsubscribe Scenario.bob (mkUnsubscribe 4 11)
     (Broker.Subscribe Scenario.bob 11 (mkSubscribe 3 ∅ "com.y") B).1).1 = B.
Proof.
  intros cs.
  apply (Subscribe_Unsubscribe_restores cs Scenario.bob 11
           (mkSubscribe 3 ∅ "com.y") 4).
  - unfold Inv.unique_ids. simpl. apply NoDup_singleton.
  - simpl. apply not_elem_of_cons. split; [done | apply not_elem_of_nil].
Defined.

(** C5: when [msg.Subscription] is not a key of [subscriptions],
    [Unsubscribe] sends to the requester exactly one message, the ERROR with
    type UNSUBSCRIBE, the request of [msg] and the error
    wamp.error.no_such_subscription; so no UNSUBSCRIBED is sent, and the
    broker it leaves is the broker it was given, all four maps included. *)
Theorem Unsubscribe_no_such_subscription
    (sub : SessionRef) (msg : Unsubscribe) (br : defaultBroker) :
  subscriptions br !! unsub_Subscription msg = None →
  Broker.Unsubscribe sub msg br =
    (br, [(sub, MError UNSUBSCRIBE (unsub_Request msg)
                  "wamp.error.no_such_subscription")]).
Proof.
  intros Hnone. unfold Broker.Unsubscribe. by rewrite Hnone.
Qed.

Lemma Unsubscribe_no_such_subscription_witness :
  Broker.Unsubscribe Scenario.bob (mkUnsubscribe 3 7) Scenario.one_subscriber =
    (Scenario.one_subscriber,
     [(Scenario.bob,
       MError UNSUBSCRIBE 3%N "wamp.error.no_such_subscription")]).
Proof.
  apply (Unsubscribe_no_such_subscription Scenario.bob (mkUnsubscribe 3 7)
           Scenario.one_subscriber).
  reflexivity.
Defined.

(** [RemoveSubscriber] on any four maps, consistent or not: it returns,
    sends nothing, forgets the session's key and every subscription the
    session's set names, with the route and the options filed under the
    topic of each; ids of the set that [subscriptions] does not know are
    passed over. *)
Lemma RemoveSubscriber_any_broker (br : defaultBroker) (s : SessionRef) :
  let br' := (Broker.RemoveSubscriber s br).1 in
  (Broker.RemoveSubscriber s br).2 = []
  ∧ sessions br' !! s = None
  ∧ ∀ id, Inv.holds (sessions br) s id →
      subscriptions br' !! id = None
      ∧ ∀ topic, subscriptions br !! id = Some topic →
          Inv.lookup2 (routes br') topic id = None
          ∧ Inv.lookup2 (options br') topic id = None.
Proof.
  simpl. split; [done|]. split; [apply lookup_delete_eq|].
  intros id Hh.
  assert (id ∈ elements (default ∅ (sessions br !! s))) as Hin
    by by apply elem_of_elements.
  split.
  - apply eq_None_not_Some.
    intros [topic [Hn _]%remove_subscriptions_subscriptions]. done.
  - intros topic Ht. split; apply eq_None_not_Some.
    + intros [s' [_ Hn]%remove_subscriptions_routes]. by apply Hn.
    + intros [d [_ Hn]%remove_subscriptions_options]. by apply Hn.
Qed.

(** C6: on a broker reached with ids handed out once each,
    [RemoveSubscriber s] leaves [s] in none of the four maps (it is no key
    of [sessions] and no route leads to it) and leaves every id that was in
    sessions[s] in none of them (no key of [subscriptions], under no topic
    of [routes] or [options], in no session's set), also the ids of
    sessions[s] that [subscriptions] no longer knew, which the loop passes
    over; and when sessions[s] holds no id the call gives back the broker
    it was given. *)
Theorem RemoveSubscriber_clears (br : defaultBroker) (s : SessionRef) :
  Inv.reachable br →
  let br' := (Broker.RemoveSubscriber s br).1 in
  ¬ Inv.session_occurs br' s
  ∧ (∀ id, Inv.holds (sessions br) s id → ¬ Inv.id_occurs br' id)
  ∧ ((∀ id, ¬ Inv.holds (sessions br) s id) →
     Broker.RemoveSubscriber s br = (br, [])).
Proof.
  intros [used Hwf]%wf_reachable br'.
  pose proof (wf_RemoveSubscriber used s br Hwf) as Hwf'. fold br' in Hwf'.
  destruct (RemoveSubscriber_any_broker br s) as (_ & Hkey & Hids).
  fold br' in Hkey, Hids.
  assert (∀ id', ¬ Inv.holds (sessions br') s id') as Hnone.
  { intros id'. unfold Inv.holds. by rewrite Hkey. }
  split_and!.
  - intros [[ids Hs]|(topic & id & Hr)]; [by rewrite Hkey in Hs|].
    destruct (Inv.wf_routes _ _ Hwf' _ _ _ Hr) as [_ Hh]. by apply (Hnone id).
  - intros id Hh.
    assert (∀ s', ¬ Inv.holds (sessions br') s' id) as Hno.
    { intros s'. unfold br'. simpl. rewrite remove_subscriptions_sessions.
      intros [Hne Hh']%holds_delete.
      by apply Hne, (Inv.wf_one_holder _ _ Hwf s' s id). }
    destruct (Hids id Hh) as [Hsub _].
    intros [[topic Ht]|[(topic & s' & Hr)|[(topic & d & Ho)|[s' Hs']]]].
    + by rewrite Hsub in Ht.
    + destruct (Inv.wf_routes _ _ Hwf' _ _ _ Hr) as [_ Hh']. by apply (Hno s').
    + by rewrite (Inv.wf_options _ _ Hwf' _ _ _ Ho) in Hsub.
    + by apply (Hno s').
  - intros Hempty. unfold Broker.RemoveSubscriber.
    assert (sessions br !! s = None) as Hs.
    { destruct (sessions br !! s) as [ids|] eqn:Hs; [|done].
      destruct (Inv.wf_pruned_sessions _ _ Hwf s ids Hs).
      apply set_eq. intros id. split; [|set_solver].
      intros Hin. destruct (Hempty id). unfold Inv.holds. by rewrite Hs. }
    rewrite Hs. simpl. rewrite elements_empty. simpl.
    rewrite delete_id by done. by destruct br.
Qed.

Lemma RemoveSubscriber_clears_witness :
  let br :=
    Run.broker_calls
      [CallSubscribe Scenario.alice 10 (mkSubscribe 1 ∅ "com.x");
       CallSubscribe Scenario.alice 11 (mkSubscribe 2 ∅ "com.y");
       CallSubscribe Scenario.bob 12 (mkSubscribe 3 ∅ "com.x");
       CallUnsubscribe Scenario.bob (mkUnsubscribe 4 10)]
      Broker.NewDefaultBroker in
  let br' := (Broker.RemoveSubscriber Scenario.alice br).1 in
  ¬ Inv.session_occurs br' Scenario.alice
  ∧ (∀ id, Inv.holds (sessions br) Scenario.alice id →
       ¬ Inv.id_occurs br' id)
  ∧ ((∀ id, ¬ Inv.holds (sessions br) Scenario.alice id) →
     Broker.RemoveSubscriber Scenario.alice br = (br, [])).
Proof.
  intros br. apply (RemoveSubscriber_clears br Scenario.alice).
  eexists. split; [|reflexivity].
  unfold Inv.unique_ids. simpl.
  apply (bool_decide_unpack _). vm_compute. reflexivity.
Defined.

(** C9: [Publish] gives back the broker it was given, whatever the topic,
    the publisher and the options, and whether it returns or panics: each
    of [routes], [options], [subscriptions] and [sessions] is as before. *)
Theorem Publish_keeps_broker (pub : SessionRef) (pubID : ID) (msg : Publish)
    (br : defaultBroker) :
  let br' := (Broker.Publish pub pubID msg br).1 in
  br' = br
  ∧ routes br' = routes br ∧ options br' = options br
  ∧ subscriptions br' = subscriptions br ∧ sessions br' = sessions br.
Proof.
  assert ((Broker.Publish pub pubID msg br).1 = br) as Heq.
  { unfold Broker.Publish.
    destruct (Broker.fanout _ _ _ _ _) as [sent [|]]; [|done].
    by destruct (Broker.acknowledge _). }
  simpl. by rewrite Heq.
Qed.

(** C10: let session [s0] be handed [id] by its [Subscribe], in a sequence
    of calls with ids handed out once each, and let [id] still be a key of
    [subscriptions] afterwards.  An [Unsubscribe] of [id] by another
    session [sub] removes [id] from [subscriptions], from [routes] and from
    [options], sends UNSUBSCRIBED to [sub] and nothing else, and leaves
    [id] in sessions[s0], where it was. *)
Theorem Unsubscribe_by_other_session (cs1 cs2 : list BrokerCall)
    (s0 sub : SessionRef) (id : ID) (msg0 : Subscribe) (msg : Unsubscribe) :
  let cs := cs1 ++ CallSubscribe s0 id msg0 :: cs2 in
  let br := Run.broker_calls cs Broker.NewDefaultBroker in
  Inv.unique_ids cs →
  is_Some (subscriptions br !! id) →
  unsub_Subscription msg = id →
  sub ≠ s0 →
  let br' := (Broker.Unsubscribe sub msg br).1 in
  Inv.holds (sessions br) s0 id
  ∧ subscriptions br' !! id = None
  ∧ (∀ topic, Inv.lookup2 (routes br') topic id = None)
  ∧ (∀ topic, Inv.lookup2 (options br') topic id = None)
  ∧ (Broker.Unsubscribe sub msg br).2
    = [(sub, MUnsubscribed (unsub_Request msg))]
  ∧ Inv.holds (sessions br') s0 id.
Proof.
  intros cs br Hu [topic Ht] Hid Hne br'.
  pose proof (wf_reachable_calls cs Hu) as Hwf. fold br in Hwf.
  unfold Inv.unique_ids, cs in Hu. rewrite minted_app in Hu. simpl in Hu.
  apply NoDup_app in Hu as (Hu1 & Hdisj & [Hnin2 Hu2]%NoDup_cons).
  assert (Inv.holds (sessions br) s0 id) as Hh.
  { destruct (Inv.wf_subscriptions _ _ Hwf _ _ Ht) as [[s Hr] _].
    destruct (Inv.wf_routes _ _ Hwf _ _ _ Hr) as [_ Hs].
    enough (s = s0) by by subst.
    unfold br, cs in Hr. rewrite broker_calls_app in Hr.
    change (CallSubscribe s0 id msg0 :: cs2)
      with ([CallSubscribe s0 id msg0] ++ cs2) in Hr.
    rewrite broker_calls_app in Hr.
    apply routes_persist_calls in Hr; [|done].
    unfold Run.broker_calls in Hr at 1. simpl in Hr.
    rewrite lookup2_subscribe in Hr. case_decide as Hd; [by simplify_eq|].
    pose proof (wf_reachable_calls cs1 Hu1) as Hwf1.
    destruct (wf_fresh _ _ id Hwf1) as (_ & Hr1 & _).
    - rewrite elem_of_list_to_set. intros Hin. apply (Hdisj id Hin). by left.
    - by rewrite Hr1 in Hr. }
  unfold br', Broker.Unsubscribe. rewrite Hid, Ht. simpl.
  split_and!; try done.
  - apply lookup_delete_eq.
  - intros topic'. rewrite lookup2_clean_up. case_decide as Hd; [done|].
    apply eq_None_not_Some. intros [s Hr].
    destruct (Inv.wf_routes _ _ Hwf _ _ _ Hr) as [Ht' _]. naive_solver.
  - intros topic'. rewrite lookup2_clean_up. case_decide as Hd; [done|].
    apply eq_None_not_Some. intros [d Ho].
    pose proof (Inv.wf_options _ _ Hwf _ _ _ Ho) as Ht'. naive_solver.
  - apply holds_clean_up_sender. split; [done|]. by intros [-> _].
Qed.

Lemma Unsubscribe_by_other_session_witness :
  let br := Scenario.one_subscriber in
  let br' := (Broker.Unsubscribe Scenario.bob (mkUnsubscribe 2 10) br).1 in
  Inv.holds (sessions br) Scenario.alice 10
  ∧ subscriptions br' !! 10%N = None
  ∧ (∀ topic, Inv.lookup2 (routes br') topic 10 = None)
  ∧ (∀ topic, Inv.lookup2 (options br') topic 10 = None)
  ∧ (Broker.Unsubscribe Scenario.bob (mkUnsubscribe 2 10) br).2
    = [(Scenario.bob, MUnsubscribed 2)]
  ∧ Inv.holds (sessions br') Scenario.alice 10.
Proof.
  apply (Unsubscribe_by_other_session [] [] Scenario.alice Scenario.bob 10
           (mkSubscribe 1 ∅ "com.x") (mkUnsubscribe 2 10)).
  - unfold Inv.unique_ids. simpl. apply NoDup_singleton.
  - vm_compute. eauto.
  - reflexivity.
  - vm_compute. discriminate.
Defined.

(** With ids handed out once, an id that is no key of [subscriptions] has
    no route and no options under any topic, the empty URI included: the
    consistency invariant reads the same with Go's zero value for the
    missing topic. *)
Lemma unknown_id_has_no_entries (cs : list BrokerCall) (id : ID) (topic : URI) :
  Inv.unique_ids cs →
  let br := Run.broker_calls cs Broker.NewDefaultBroker in
  subscriptions br !! id = None →
  Inv.lookup2 (routes br) topic id = None
  ∧ Inv.lookup2 (options br) topic id = None.
Proof.
  intros Hwf%wf_reachable_calls br Hnone. fold br in Hwf.
  split; apply eq_None_not_Some.
  - intros [s Hr]. destruct (Inv.wf_routes _ _ Hwf _ _ _ Hr) as [Ht _].
    by rewrite Ht in Hnone.
  - intros [d Ho]. by rewrite (Inv.wf_options _ _ Hwf _ _ _ Ho) in Hnone.
Qed.

(** C2, at a publication the code cannot complete: Alice is subscribed to
    com.x with the option exclude set to the empty list and Bob publishes
    to com.x with the same option.  Alice has a route under the topic, she
    is not the publisher, and every key the two option maps share carries
    the same value; yet the comparison of the two lists panics, and
    [Publish] leaves without having sent her the EVENT. *)
Theorem Publish_panics_on_list_options :
  let br := Scenario.list_subscriber in
  let msg := Scenario.publish_exclude in
  Inv.lookup2 (routes br) (pub_Topic msg) 10 = Some Scenario.alice
  ∧ Scenario.alice ≠ Scenario.bob
  ∧ (∀ key subValue pubValue,
       Inv.captured_options br (pub_Topic msg) 10 !! key = Some subValue →
       pub_Options msg !! key = Some pubValue → subValue = pubValue)
  ∧ Broker.Publish Scenario.bob 77 msg br = (br, ([], Panicked)).
Proof.
  simpl. split_and!; [reflexivity | discriminate | | reflexivity].
  intros key subValue pubValue.
  change (Inv.captured_options Scenario.list_subscriber "com.x" 10)
    with ({[ "exclude" := VList [] ]} : gmap string Value).
  unfold Scenario.publish_exclude. simpl.
  intros [<- <-]%lookup_singleton_Some [_ <-]%lookup_singleton_Some. done.
Qed.

(** C7, at a publication the code cannot complete: Bob publishes to com.x
    with acknowledge set to [true] and the option exclude set to the empty
    list, which the subscriber Alice has set as well.  The comparison of
    the two lists panics inside the loop, and [Publish] leaves before the
    PUBLISHED is sent. *)
Theorem Publish_panic_drops_acknowledgement :
  let br := Scenario.list_subscriber in
  let msg := Scenario.publish_exclude_acknowledge in
  pub_Options msg !! "acknowledge" = Some (VBool true)
  ∧ Broker.acknowledge (pub_Options msg) = true
  ∧ Broker.Publish Scenario.bob 77 msg br = (br, ([], Panicked)).
Proof. simpl. split_and!; reflexivity. Qed.

(** Where nothing panics the acknowledgement is as C7 has it: with no
    subscriber under the topic nothing is sent but the PUBLISHED, and it
    is sent exactly when acknowledge is the boolean [true]. *)
Lemma Publish_no_subscribers (pub : SessionRef) (pubID : ID) (msg : Publish)
    (br : defaultBroker) :
  routes br !! pub_Topic msg = None →
  Broker.Publish pub pubID msg br =
    (br,
     (if Broker.acknowledge (pub_Options msg)
      then [(pub, MPublished (pub_Request msg) pubID)] else [],
      Returned)).
Proof.
  intros Hnone. unfold Broker.Publish. rewrite Hnone. simpl.
  rewrite map_to_list_empty. simpl.
  by destruct (Broker.acknowledge _).
Qed.

(** ** The claims about the router *)

(** Every error [Accept] returns for a reason other than a failed receive
    or a failed send of the WELCOME comes after the peer was closed. *)
Lemma Accept_other_errors_close (client : Peer) (env : AcceptEnv)
    (r : defaultRouter) (e : error) :
  (Router.Accept client env r).2 = Some e →
  (∀ text, e ≠ PeerError text) →
  AClose client ∈ (Router.Accept client env r).1.
Proof.
  unfold Router.Accept.
  destruct (closing r); [intros _ _; set_solver|].
  destruct (env_GetMessageTimeout env) as [msg|err]; simpl.
  - destruct msg as [hello| | | | | | | | | | |]; try (intros _ _; set_solver).
    destruct (realms r !! hello_Realm hello) as [realm|];
      [|intros _ _; set_solver].
    destruct (env_handleAuth env realm (hello_Details hello)) as [w|err];
      [|intros _ _; set_solver].
    destruct (env_SendWelcome env) as [err|]; simpl; [|done].
    intros [= <-] Hne. by destruct (Hne err).
  - intros [= <-] Hne. by destruct (Hne err).
Qed.

Lemma closing_router_call (r : defaultRouter) (c : RouterCall) :
  closing r = true → closing (Run.router_call r c) = true.
Proof.
  intros Hc. destruct c; simpl; try done.
  - unfold Router.Close. by rewrite Hc.
  - unfold Router.RegisterRealm. by destruct (realms r !! uri).
Qed.

Lemma closing_router_calls (cs : list RouterCall) (r : defaultRouter) :
  closing r = true → closing (Run.router_calls cs r) = true.
Proof.
  revert r. induction cs as [|c cs IH]; intros r Hc; [done|].
  unfold Run.router_calls in *. simpl. by apply IH, closing_router_call.
Qed.

Lemma open_router_calls (cs : list RouterCall) (r : defaultRouter) :
  forallb (λ c, negb (is_CallClose c)) cs = true →
  closing (Run.router_calls cs r) = closing r.
Proof.
  revert r. induction cs as [|c cs IH]; intros r Hcs; [done|].
  simpl in Hcs. apply andb_true_iff in Hcs as [Hc Hcs].
  unfold Run.router_calls in *. simpl. rewrite IH by done.
  destruct c; simpl in *; try done.
  unfold Router.RegisterRealm. by destruct (realms r !! uri).
Qed.

(** C3, where the code departs from it: on a router that is not closing,
    when [GetMessageTimeout] yields an error (the timeout is one), [Accept]
    returns that error having sent nothing and started no session, and
    without closing the peer: the receive is all it has done. *)
Theorem Accept_receive_error_leaves_peer_open (client : Peer) (err : string)
    (handleAuth : Realm → Dict → Welcome + string) (id : ID)
    (sendWelcome : option string) (registered : gmap URI Realm)
    (openCallbacks closeCallbacks : list Callback) :
  let r := mkRouter registered false openCallbacks closeCallbacks in
  let env := mkAcceptEnv (inr err) handleAuth id sendWelcome in
  Router.Accept client env r
  = ([AGetMessageTimeout client 5], Some (PeerError err))
  ∧ AClose client ∉ (Router.Accept client env r).1.
Proof.
  simpl. split; [done|].
  intros [[=]|[]%elem_of_nil]%elem_of_cons.
Qed.

(** C8: take any calls on the new router, none of them [Close].  The
    [Close] that follows finds [closing] unset, sets it, calls [Close] on
    the realm of each registration, once, and on nothing else, and returns
    no error.  After any further calls [closing] is still set, and a [Close]
    then returns the error "already closed", closes no realm and leaves the
    router as it is. *)
Theorem Close_guard (before after : list RouterCall) :
  forallb (λ c, negb (is_CallClose c)) before = true →
  let r := Run.router_calls before Router.NewDefaultRouter in
  let r1 := (Router.Close r).1.1 in
  let r2 := Run.router_calls after r1 in
  closing r = false
  ∧ closing r1 = true
  ∧ realms r1 = realms r
  ∧ (Router.Close r).2 = None
  ∧ (∀ a, a ∈ (Router.Close r).1.2 ↔
          ∃ uri realm, realms r !! uri = Some realm ∧ a = ARealmClose realm)
  ∧ length (Router.Close r).1.2 = size (realms r)
  ∧ closing r2 = true
  ∧ Router.Close r2 = (r2, [], Some (Errorf "already closed" None)).
Proof.
  intros Hbefore r r1 r2.
  assert (closing r = false) as Hopen
    by apply (open_router_calls before Router.NewDefaultRouter Hbefore).
  assert (closing r1 = true) as Hset.
  { unfold r1, Router.Close. by rewrite Hopen. }
  assert (closing r2 = true) as Hstill by by apply closing_router_calls.
  unfold r1, Router.Close in *. rewrite Hopen in *. simpl in *.
  split_and!; try done.
  - intros a. rewrite list_elem_of_fmap. split.
    + intros ([uri realm] & -> & Hin%elem_of_map_to_list). by exists uri, realm.
    + intros (uri & realm & Hin & ->). exists (uri, realm).
      split; [done | by apply elem_of_map_to_list].
  - by rewrite length_fmap, length_map_to_list.
  - by rewrite Hstill.
Qed.

Lemma Close_guard_witness :
  let before := [CallRegisterRealm "realm1" 1%positive;
                 CallAccept 4%positive Scenario.no_hello;
                 CallRegisterRealm "realm2" 2%positive] in
  let after := [CallAccept 5%positive Scenario.no_hello; CallClose;
                CallRegisterRealm "realm3" 3%positive] in
  let r := Run.router_calls before Router.NewDefaultRouter in
  let r1 := (Router.Close r).1.1 in
  let r2 := Run.router_calls after r1 in
  closing r = false
  ∧ closing r1 = true
  ∧ realms r1 = realms r
  ∧ (Router.Close r).2 = None
  ∧ (∀ a, a ∈ (Router.Close r).1.2 ↔
          ∃ uri realm, realms r !! uri = Some realm ∧ a = ARealmClose realm)
  ∧ length (Router.Close r).1.2 = size (realms r)
  ∧ closing r2 = true
  ∧ Router.Close r2 = (r2, [], Some (Errorf "already closed" None)).
Proof.
  intros before after. apply (Close_guard before after). reflexivity.
Defined.

(** ** Further properties of the broker *)

(** X1: [Subscribe] files the subscription under its id in all four maps
    (the topic in [subscriptions], the session in [routes], the options of
    the message in [options], the id in the session's set), answers the
    subscriber with the SUBSCRIBED of the request and the id, and leaves
    what the maps say of every other id as it was. *)
Theorem Subscribe_registers (sub : SessionRef) (id : ID) (msg : Subscribe)
    (br : defaultBroker) :
  let br' := (Broker.Subscribe sub id msg br).1 in
  subscriptions br' !! id = Some (sub_Topic msg)
  ∧ Inv.lookup2 (routes br') (sub_Topic msg) id = Some sub
  ∧ Inv.lookup2 (options br') (sub_Topic msg) id = Some (sub_Options msg)
  ∧ Inv.holds (sessions br') sub id
  ∧ (Broker.Subscribe sub id msg br).2
    = [(sub, MSubscribed (sub_Request msg) id)]
  ∧ ∀ id', id' ≠ id →
      subscriptions br' !! id' = subscriptions br !! id'
      ∧ (∀ topic, Inv.lookup2 (routes br') topic id'
                  = Inv.lookup2 (routes br) topic id')
      ∧ (∀ topic, Inv.lookup2 (options br') topic id'
                  = Inv.lookup2 (options br) topic id')
      ∧ (∀ s, Inv.holds (sessions br') s id' ↔ Inv.holds (sessions br) s id').
Proof.
  simpl. split_and!.
  - apply lookup_insert_eq.
  - by rewrite lookup2_subscribe, decide_True.
  - by rewrite lookup2_subscribe, decide_True.
  - apply holds_subscribe. by left.
  - done.
  - intros id' Hne. split_and!.
    + by apply lookup_insert_ne.
    + intros topic. rewrite lookup2_subscribe.
      by rewrite decide_False by (by intros [_ ?]).
    + intros topic. rewrite lookup2_subscribe.
      by rewrite decide_False by (by intros [_ ?]).
    + intros s. rewrite holds_subscribe. naive_solver.
Qed.

(** X2: an [Unsubscribe] of a known id removes it from [subscriptions], from
    the routes and the options of its topic and from the requester's set,
    and answers UNSUBSCRIBED; what the maps say of every other id, and what
    the sets of the other sessions hold, stays as it was. *)
Theorem Unsubscribe_removes (sub : SessionRef) (msg : Unsubscribe)
    (topic : URI) (br : defaultBroker) :
  subscriptions br !! unsub_Subscription msg = Some topic →
  let id := unsub_Subscription msg in
  let br' := (Broker.Unsubscribe sub msg br).1 in
  subscriptions br' !! id = None
  ∧ Inv.lookup2 (routes br') topic id = None
  ∧ Inv.lookup2 (options br') topic id = None
  ∧ ¬ Inv.holds (sessions br') sub id
  ∧ (Broker.Unsubscribe sub msg br).2
    = [(sub, MUnsubscribed (unsub_Request msg))]
  ∧ (∀ s, s ≠ sub → sessions br' !! s = sessions br !! s)
  ∧ ∀ id', id' ≠ id →
      subscriptions br' !! id' = subscriptions br !! id'
      ∧ (∀ topic', Inv.lookup2 (routes br') topic' id'
                   = Inv.lookup2 (routes br) topic' id')
      ∧ (∀ topic', Inv.lookup2 (options br') topic' id'
                   = Inv.lookup2 (options br) topic' id')
      ∧ (∀ s, Inv.holds (sessions br') s id' ↔ Inv.holds (sessions br) s id').
Proof.
  intros Ht id br'. subst id br'. unfold Broker.Unsubscribe.
  rewrite Ht. simpl. split_and!.
  - apply lookup_delete_eq.
  - by rewrite lookup2_clean_up, decide_True.
  - by rewrite lookup2_clean_up, decide_True.
  - rewrite holds_clean_up_sender. naive_solver.
  - done.
  - intros s Hne. unfold Broker.clean_up_sender.
    destruct (sessions br !! sub) as [ids|]; [|done].
    case_decide; [|done].
    destruct (Nat.eqb _ 0).
    + by apply lookup_delete_ne.
    + by apply lookup_insert_ne.
  - intros id' Hne. split_and!.
    + by apply lookup_delete_ne.
    + intros topic'. rewrite lookup2_clean_up.
      by rewrite decide_False by (by intros [_ ?]).
    + intros topic'. rewrite lookup2_clean_up.
      by rewrite decide_False by (by intros [_ ?]).
    + intros s. rewrite holds_clean_up_sender. naive_solver.
Qed.

Lemma Unsubscribe_removes_witness :
  let br := Cases.busy_broker in
  let br' := (Broker.Unsubscribe Scenario.alice (mkUnsubscribe 5 10) br).1 in
  subscriptions br' !! 10%N = None
  ∧ Inv.lookup2 (routes br') "com.x" 10 = None
  ∧ Inv.lookup2 (options br') "com.x" 10 = None
  ∧ ¬ Inv.holds (sessions br') Scenario.alice 10
  ∧ (Broker.Unsubscribe Scenario.alice (mkUnsubscribe 5 10) br).2
    = [(Scenario.alice, MUnsubscribed 5)]
  ∧ (∀ s, s ≠ Scenario.alice → sessions br' !! s = sessions br !! s)
  ∧ ∀ id', id' ≠ 10%N →
      subscriptions br' !! id' = subscriptions br !! id'
      ∧ (∀ topic', Inv.lookup2 (routes br') topic' id'
                   = Inv.lookup2 (routes br) topic' id')
      ∧ (∀ topic', Inv.lookup2 (options br') topic' id'
                   = Inv.lookup2 (options br) topic' id')
      ∧ (∀ s, Inv.holds (sessions br') s id' ↔ Inv.holds (sessions br) s id').
Proof.
  apply (Unsubscribe_removes Scenario.alice (mkUnsubscribe 5 10) "com.x"
           Cases.busy_broker).
  reflexivity.
Defined.

(** X3: whatever a first [Unsubscribe] of an id did, a second one of the
    same id, by any session, is answered with the ERROR
    wamp.error.no_such_subscription and changes nothing. *)
Theorem Unsubscribe_twice (sub sub' : SessionRef) (request request' : ID)
    (id : ID) (br : defaultBroker) :
  let br' := (Broker.Unsubscribe sub (mkUnsubscribe request id) br).1 in
  Broker.Unsubscribe sub' (mkUnsubscribe request' id) br'
  = (br', [(sub', MError UNSUBSCRIBE request'
                    "wamp.error.no_such_subscription")]).
Proof.
  intros br'.
  assert (subscriptions br' !! id = None) as Hnone.
  { unfold br', Broker.Unsubscribe. simpl.
    destruct (subscriptions br !! id) eqn:Hid; simpl; [|done].
    apply lookup_delete_eq. }
  unfold Broker.Unsubscribe at 1. simpl. by rewrite Hnone.
Qed.

(** X4: [RemoveSubscriber] is idempotent: a second call for the same
    session gives back the broker the first call left, on any four maps. *)
Theorem RemoveSubscriber_idempotent (s : SessionRef) (br : defaultBroker) :
  let br' := (Broker.RemoveSubscriber s br).1 in
  Broker.RemoveSubscriber s br' = (br', []).
Proof.
  intros br'.
  assert (sessions br' !! s = None) as Hnone by apply lookup_delete_eq.
  clearbody br'. unfold Broker.RemoveSubscriber. rewrite Hnone. simpl.
  rewrite elements_empty. simpl.
  rewrite delete_id by done. by destruct br'.
Qed.

(** X5: [RemoveSubscriber s] touches nothing of an id that sessions[s] does
    not hold: its entry in [subscriptions], its routes and its options are
    as before, and the set of every other session is as before. *)
Theorem RemoveSubscriber_frame (s : SessionRef) (id : ID)
    (br : defaultBroker) :
  ¬ Inv.holds (sessions br) s id →
  let br' := (Broker.RemoveSubscriber s br).1 in
  subscriptions br' !! id = subscriptions br !! id
  ∧ (∀ topic, Inv.lookup2 (routes br') topic id
              = Inv.lookup2 (routes br) topic id)
  ∧ (∀ topic, Inv.lookup2 (options br') topic id
              = Inv.lookup2 (options br) topic id)
  ∧ ∀ s', s' ≠ s → sessions br' !! s' = sessions br !! s'.
Proof.
  intros Hh br'.
  assert (id ∉ elements (default ∅ (sessions br !! s))) as Hnin
    by by rewrite elem_of_elements.
  unfold br'. simpl. split_and!.
  - apply option_eq. intros topic.
    rewrite remove_subscriptions_subscriptions. naive_solver.
  - intros topic. apply option_eq. intros s'.
    rewrite remove_subscriptions_routes. naive_solver.
  - intros topic. apply option_eq. intros d.
    rewrite remove_subscriptions_options. naive_solver.
  - intros s' Hne. rewrite remove_subscriptions_sessions.
    by apply lookup_delete_ne.
Qed.

Lemma RemoveSubscriber_frame_witness :
  let br := Cases.busy_broker in
  let br' := (Broker.RemoveSubscriber Scenario.alice br).1 in
  subscriptions br' !! 12%N = subscriptions br !! 12%N
  ∧ (∀ topic, Inv.lookup2 (routes br') topic 12
              = Inv.lookup2 (routes br) topic 12)
  ∧ (∀ topic, Inv.lookup2 (options br') topic 12
              = Inv.lookup2 (options br) topic 12)
  ∧ ∀ s', s' ≠ Scenario.alice → sessions br' !! s' = sessions br !! s'.
Proof.
  apply (RemoveSubscriber_frame Scenario.alice 12 Cases.busy_broker).
  apply (bool_decide_unpack _). vm_compute. reflexivity.
Defined.

(** X6: on a broker reached with ids handed out once each, a [Subscribe]
    of a session that holds nothing yet, followed by [RemoveSubscriber] of
    that session, leaves the broker it started from. *)
Theorem Subscribe_RemoveSubscriber_restores (cs : list BrokerCall)
    (s : SessionRef) (id : ID) (msg : Subscribe) :
  Inv.unique_ids cs → id ∉ Run.minted cs →
  let B := Run.broker_calls cs Broker.NewDefaultBroker in
  sessions B !! s = None →
  (Broker.RemoveSubscriber s (Broker.Subscribe s id msg B).1).1 = B.
Proof.
  intros Hu Hfresh B Hnone.
  pose proof (wf_reachable_calls cs Hu) as Hwf. fold B in Hwf.
  destruct (wf_fresh _ B id Hwf) as (Hs & Hr & Ho & Hh); [set_solver|].
  unfold Broker.RemoveSubscriber, Broker.Subscribe. simpl.
  rewrite lookup_insert_eq, Hnone. simpl.
  rewrite union_empty_r_L, elements_singleton.
  unfold Broker.remove_subscriptions. simpl.
  unfold Broker.remove_subscription. simpl.
  rewrite lookup_insert_eq. simpl.
  rewrite !clean_up_subscribe, !delete_insert_id; try done; try apply Hwf.
  by destruct B.
Qed.

Lemma Subscribe_RemoveSubscriber_restores_witness :
  let B := Run.broker_calls Cases.three_subscriptions
             Broker.NewDefaultBroker in
  (Broker.RemoveSubscriber 3%positive
     (Broker.Subscribe 3%positive 13 (mkSubscribe 4 ∅ "com.x") B).1).1 = B.
Proof.
  apply (Subscribe_RemoveSubscriber_restores Cases.three_subscriptions
           3%positive 13 (mkSubscribe 4 ∅ "com.x")).
  - apply (bool_decide_unpack _). vm_compute. reflexivity.
  - apply (bool_decide_unpack _). vm_compute. reflexivity.
  - reflexivity.
Defined.

Lemma RemoveSubscriber_any_order_witness :
  (Broker.RemoveSubscriber Scenario.alice Cases.busy_broker).1 =
    mkBroker
      (options (Broker.remove_subscriptions [11; 10]%N Cases.busy_broker))
      (routes (Broker.remove_subscriptions [11; 10]%N Cases.busy_broker))
      (subscriptions
         (Broker.remove_subscriptions [11; 10]%N Cases.busy_broker))
      (delete Scenario.alice
         (sessions
            (Broker.remove_subscriptions [11; 10]%N Cases.busy_broker))).
Proof.
  apply (RemoveSubscriber_any_order Scenario.alice Cases.busy_broker
           [11; 10]%N).
  apply (bool_decide_unpack _). vm_compute. reflexivity.
Defined.


(** The calls keep the tables pruned. *)
Lemma pruned_broker_call (br : defaultBroker) (c : BrokerCall) :
  Obs.pruned_broker br → Obs.pruned_broker (Run.broker_call br c).
Proof.
  intros (Hr & Ho & Hs). destruct c as [sub id msg|sub msg|sub]; simpl.
  - split_and!; [by apply pruned_subscribe.. |
                 by apply pruned_sessions_subscribe].
  - unfold Broker.Unsubscribe.
    destruct (subscriptions br !! unsub_Subscription msg); [|done].
    split_and!; simpl; [by apply pruned_clean_up.. |
                        by apply pruned_sessions_clean_up_sender].
  - destruct (remove_subscriptions_pruned
                (elements (default ∅ (sessions br !! sub))) br Hr Ho).
    split_and!; simpl; [done..|].
    rewrite remove_subscriptions_sessions. by apply pruned_sessions_delete.
Qed.

(** X9: whatever calls are run on the new broker, with whatever ids, after
    each of them no topic of [routes] or [options] is left with an empty
    table and no session of [sessions] with an empty set. *)
Theorem broker_calls_pruned (cs : list BrokerCall) :
  Forall Obs.pruned_broker (Run.broker_trace cs Broker.NewDefaultBroker).
Proof.
  assert (Obs.pruned_broker Broker.NewDefaultBroker) as Hnew.
  { split_and!; intros k v; simpl; by rewrite lookup_empty. }
  revert Hnew. generalize Broker.NewDefaultBroker.
  induction cs as [|c cs IH]; intros br Hp; simpl; constructor.
  - by apply pruned_broker_call.
  - by apply IH, pruned_broker_call.
Qed.

(** X10: when every [Subscribe] was handed an id of its own, the maps of
    the broker index one another: a route or an options entry under a
    topic belongs to an id that [subscriptions] maps to that topic, the
    session a route leads to holds the id in its set, a key of
    [subscriptions] has its route and its options, every id a session
    holds was handed out, and no id is held by two sessions. *)
Theorem broker_calls_indexed (cs : list BrokerCall) :
  Inv.unique_ids cs →
  let br := Run.broker_calls cs Broker.NewDefaultBroker in
  (∀ topic id s,
     Inv.lookup2 (routes br) topic id = Some s →
     subscriptions br !! id = Some topic ∧ Inv.holds (sessions br) s id)
  ∧ (∀ topic id d,
       Inv.lookup2 (options br) topic id = Some d →
       subscriptions br !! id = Some topic)
  ∧ (∀ id topic,
       subscriptions br !! id = Some topic →
       is_Some (Inv.lookup2 (routes br) topic id)
       ∧ is_Some (Inv.lookup2 (options br) topic id))
  ∧ (∀ s id, Inv.holds (sessions br) s id → id ∈ Run.minted cs)
  ∧ (∀ s s' id,
       Inv.holds (sessions br) s id → Inv.holds (sessions br) s' id →
       s = s').
Proof.
  intros Hwf%wf_reachable_calls br. fold br in Hwf.
  split_and!; try apply Hwf.
  intros s id Hh. pose proof (Inv.wf_used _ _ Hwf s id Hh) as Hin.
  by apply elem_of_list_to_set in Hin.
Qed.

Lemma broker_calls_indexed_witness :
  let br := Cases.busy_broker in
  (∀ topic id s,
     Inv.lookup2 (routes br) topic id = Some s →
     subscriptions br !! id = Some topic ∧ Inv.holds (sessions br) s id)
  ∧ (∀ topic id d,
       Inv.lookup2 (options br) topic id = Some d →
       subscriptions br !! id = Some topic)
  ∧ (∀ id topic,
       subscriptions br !! id = Some topic →
       is_Some (Inv.lookup2 (routes br) topic id)
       ∧ is_Some (Inv.lookup2 (options br) topic id))
  ∧ (∀ s id, Inv.holds (sessions br) s id →
       id ∈ Run.minted Cases.three_subscriptions)
  ∧ (∀ s s' id,
       Inv.holds (sessions br) s id → Inv.holds (sessions br) s' id →
       s = s').
Proof.
  apply (broker_calls_indexed Cases.three_subscriptions).
  apply (bool_decide_unpack _). vm_compute. reflexivity.
Defined.

(** ** Further properties of Publish *)

Lemma fanout_sent_inv (pub : SessionRef) (event : ID → Message)
    (topicOptions : gmap ID (gmap string Value))
    (pubOptions : list (string * Value)) (entries : list (ID * SessionRef))
    (s : SessionRef) (m : Message) :
  (s, m) ∈ (Broker.fanout pub event topicOptions pubOptions entries).1 →
  ∃ id, (id, s) ∈ entries ∧ s ≠ pub
        ∧ Broker.match_options (default ∅ (topicOptions !! id)) pubOptions
          = Deliver
        ∧ m = event id.
Proof.
  induction entries as [|[id sub] rest IH]; simpl.
  - by intros ?%elem_of_nil.
  - assert ((s, m) ∈ (Broker.fanout pub event topicOptions pubOptions rest).1
            → ∃ id', (id', s) ∈ (id, sub) :: rest ∧ s ≠ pub
                ∧ Broker.match_options (default ∅ (topicOptions !! id'))
                    pubOptions = Deliver
                ∧ m = event id') as Hrest.
    { intros (id' & ? & ?)%IH. exists id'. split; [by right | done]. }
    case_decide as Hd; [done|].
    destruct (Broker.match_options (default ∅ (topicOptions !! id))
                pubOptions) eqn:Hm; [|done|by intros ?%elem_of_nil].
    destruct (Broker.fanout pub event topicOptions pubOptions rest)
      as [sent out]. simpl in *.
    intros [[= -> ->]|Hin]%elem_of_cons; [|by apply Hrest].
    exists id. split; [by left | done].
Qed.

Lemma routes_entries (br : defaultBroker) (topic : URI) (id : ID)
    (s : SessionRef) :
  (id, s) ∈ map_to_list (default ∅ (routes br !! topic)) ↔
  Inv.lookup2 (routes br) topic id = Some s.
Proof.
  unfold Inv.lookup2. rewrite elem_of_map_to_list.
  destruct (routes br !! topic); simpl; [done|]. by rewrite lookup_empty.
Qed.

Lemma topic_options_captured (br : defaultBroker) (topic : URI) (id : ID) :
  default ∅ (default ∅ (options br !! topic) !! id)
  = Inv.captured_options br topic id.
Proof.
  unfold Inv.captured_options, Inv.lookup2.
  destruct (options br !! topic); simpl; [done|]. by rewrite lookup_empty.
Qed.

Lemma match_options_agree (subOptions pubOptions : gmap string Value) :
  Broker.match_options subOptions (map_to_list pubOptions) = Deliver ↔
  Inv.options_agree subOptions pubOptions.
Proof.
  rewrite match_options_Deliver. unfold Inv.options_agree. split.
  - intros H k sv pv Hs Hp. eapply H; [|done]. by apply elem_of_map_to_list.
  - intros H k sv pv Hp%elem_of_map_to_list Hs. by eapply H.
Qed.

(** Whatever [Publish] has sent was due, also when it panics. *)
Lemma Publish_sent_inv (pub : SessionRef) (pubID : ID) (msg : Publish)
    (br : defaultBroker) (s : SessionRef) (m : Message) :
  (s, m) ∈ (Broker.Publish pub pubID msg br).2.1 →
  Obs.due pub pubID msg br s m.
Proof.
  unfold Broker.Publish, Obs.due.
  set (event := λ id : ID,
         MEvent pubID id ∅ (pub_Arguments msg) (pub_ArgumentsKw msg)).
  pose proof (fanout_sent_inv pub event
                (default ∅ (options br !! pub_Topic msg))
                (map_to_list (pub_Options msg))
                (map_to_list (default ∅ (routes br !! pub_Topic msg)))
                s m) as Hinv.
  assert ((s, m) ∈ (Broker.fanout pub event
                      (default ∅ (options br !! pub_Topic msg))
                      (map_to_list (pub_Options msg))
                      (map_to_list (default ∅ (routes br !! pub_Topic msg)))).1
          → ∃ id, Inv.lookup2 (routes br) (pub_Topic msg) id = Some s
              ∧ s ≠ pub
              ∧ Inv.options_agree
                  (Inv.captured_options br (pub_Topic msg) id)
                  (pub_Options msg)
              ∧ m = event id) as Hev.
  { intros (id & Hin & Hne & Hm & ->)%Hinv. exists id.
    rewrite topic_options_captured in Hm.
    split_and!; [by apply routes_entries | done |
                 by apply match_options_agree | done]. }
  clear Hinv.
  destruct (Broker.fanout pub event _ _ _) as [sent [|]]; simpl in *.
  - destruct (Broker.acknowledge (pub_Options msg)) eqn:Hack; simpl.
    + intros [Hin|[= -> ->]%list_elem_of_singleton]%elem_of_app.
      * left. by apply Hev.
      * right. split_and!; [done..|]. by apply acknowledge_true.
    + intros Hin. left. by apply Hev.
  - intros Hin. left. by apply Hev.
Qed.

(** When [Publish] returns, whatever was due has been sent. *)
Lemma Publish_sent_complete (pub : SessionRef) (pubID : ID) (msg : Publish)
    (br : defaultBroker) (s : SessionRef) (m : Message) :
  (Broker.Publish pub pubID msg br).2.2 = Returned →
  Obs.due pub pubID msg br s m →
  (s, m) ∈ (Broker.Publish pub pubID msg br).2.1.
Proof.
  unfold Broker.Publish, Obs.due.
  set (event := λ id : ID,
         MEvent pubID id ∅ (pub_Arguments msg) (pub_ArgumentsKw msg)).
  pose proof (fanout_sent pub event
                (default ∅ (options br !! pub_Topic msg))
                (map_to_list (pub_Options msg))
                (map_to_list (default ∅ (routes br !! pub_Topic msg)))
                s m) as Hsent.
  destruct (Broker.fanout pub event _ _ _) as [sent [|]]; simpl in *;
    [|by intros [=]].
  intros _ [(id & Hr & Hne & Hag & ->)|(-> & -> & Hack)].
  - assert ((s, event id) ∈ sent) as Hin.
    { apply Hsent; [done|]. exists id.
      rewrite topic_options_captured.
      split_and!; [by apply routes_entries | done |
                   by apply match_options_agree | done]. }
    destruct (Broker.acknowledge _); simpl; [|done].
    apply elem_of_app. by left.
  - apply acknowledge_true in Hack. rewrite Hack. simpl.
    apply elem_of_app. right. by apply list_elem_of_singleton.
Qed.

(** X11: [Publish] sends only what is due (an EVENT to a session other than
    the publisher that has a route under the topic and whose captured
    options agree with the publication's on every shared key, the
    PUBLISHED to the publisher when acknowledge is the boolean [true]),
    also when it panics half way; and when it returns, it has sent all
    that was due. *)
Theorem Publish_sends_what_is_due (pub : SessionRef) (pubID : ID)
    (msg : Publish) (br : defaultBroker) :
  (∀ s m, (s, m) ∈ (Broker.Publish pub pubID msg br).2.1 →
          Obs.due pub pubID msg br s m)
  ∧ ((Broker.Publish pub pubID msg br).2.2 = Returned →
     ∀ s m, Obs.due pub pubID msg br s m →
            (s, m) ∈ (Broker.Publish pub pubID msg br).2.1).
Proof.
  split.
  - intros s m. apply Publish_sent_inv.
  - intros Hret s m. by apply Publish_sent_complete.
Qed.

(** X12: the publisher is never sent an EVENT of its own publication, even
    when it is subscribed to the topic: all it can be sent is the
    PUBLISHED. *)
Theorem Publish_never_to_publisher (pub : SessionRef) (pubID : ID)
    (msg : Publish) (br : defaultBroker) (m : Message) :
  (pub, m) ∈ (Broker.Publish pub pubID msg br).2.1 →
  m = MPublished (pub_Request msg) pubID.
Proof.
  intros [(id & _ & Hne & _)|(_ & -> & _)]%Publish_sent_inv; done.
Qed.

Lemma Publish_never_to_publisher_witness :
  (Scenario.alice, MPublished 9 77)
  ∈ (Broker.Publish Scenario.alice 77 Scenario.publish_acknowledge
       Scenario.one_subscriber).2.1
  ∧ MPublished 9 77
    = MPublished (pub_Request Scenario.publish_acknowledge) 77.
Proof.
  assert ((Scenario.alice, MPublished 9 77)
          ∈ (Broker.Publish Scenario.alice 77 Scenario.publish_acknowledge
               Scenario.one_subscriber).2.1) as Hin.
  { vm_compute. apply list_elem_of_here. }
  split; [exact Hin|].
  exact (Publish_never_to_publisher Scenario.alice 77
           Scenario.publish_acknowledge Scenario.one_subscriber _ Hin).
Defined.

Lemma Publish_sends_what_is_due_witness :
  (Scenario.alice, MEvent 77 10 ∅ [VInt 42] ∅)
  ∈ (Broker.Publish Scenario.bob 77 Scenario.publish_acknowledge
       Scenario.one_subscriber).2.1.
Proof.
  apply (proj2 (Publish_sends_what_is_due Scenario.bob 77
                  Scenario.publish_acknowledge Scenario.one_subscriber)).
  - reflexivity.
  - left. exists 10%N. split_and!; [reflexivity | | | reflexivity].
    + vm_compute. discriminate.
    + intros key subValue pubValue.
      change (Inv.captured_options Scenario.one_subscriber
                (pub_Topic Scenario.publish_acknowledge) 10)
        with (∅ : gmap string Value).
      by rewrite lookup_empty.
Defined.

Lemma fanout_event_subscriptions (pub : SessionRef) (event : ID → Message)
    (topicOptions : gmap ID (gmap string Value))
    (pubOptions : list (string * Value)) (entries : list (ID * SessionRef)) :
  (∀ id, Obs.event_subscription (event id) = Some id) →
  Obs.event_subscriptions
    (Broker.fanout pub event topicOptions pubOptions entries).1
  `sublist_of` entries.*1.
Proof.
  intros Hev. unfold Obs.event_subscriptions.
  induction entries as [|[id sub] rest IH]; simpl; [done|].
  case_decide as Hd; [by apply sublist_cons|].
  destruct (Broker.match_options (default ∅ (topicOptions !! id)) pubOptions).
  - destruct (Broker.fanout pub event topicOptions pubOptions rest)
      as [sent out]. simpl in *. rewrite Hev. by apply sublist_skip.
  - by apply sublist_cons.
  - apply sublist_nil_l.
Qed.

(** X13: one [Publish] sends at most one EVENT for a subscription: the
    subscription ids of the EVENTs it has sent are pairwise distinct,
    whether it returns or panics. *)
Theorem Publish_events_once (pub : SessionRef) (pubID : ID) (msg : Publish)
    (br : defaultBroker) :
  NoDup (Obs.event_subscriptions (Broker.Publish pub pubID msg br).2.1).
Proof.
  unfold Broker.Publish.
  set (event := λ id : ID,
         MEvent pubID id ∅ (pub_Arguments msg) (pub_ArgumentsKw msg)).
  pose proof (fanout_event_subscriptions pub event
                (default ∅ (options br !! pub_Topic msg))
                (map_to_list (pub_Options msg))
                (map_to_list (default ∅ (routes br !! pub_Topic msg)))
                (λ _, eq_refl)) as Hsub.
  assert (NoDup (map_to_list (default ∅ (routes br !! pub_Topic msg))).*1)
    as Hnd by apply NoDup_fst_map_to_list.
  destruct (Broker.fanout pub event _ _ _) as [sent [|]]; simpl in *.
  - destruct (Broker.acknowledge _); simpl.
    + unfold Obs.event_subscriptions in *. rewrite omap_app. simpl.
      rewrite app_nil_r. by eapply sublist_NoDup.
    + by eapply sublist_NoDup.
  - by eapply sublist_NoDup.
Qed.

(** X14: when [Publish] returns and acknowledge is the boolean [true], the
    PUBLISHED to the publisher is the last message sent, and all that was
    sent before it are EVENTs. *)
Theorem Publish_acknowledged_last (pub : SessionRef) (pubID : ID)
    (msg : Publish) (br : defaultBroker) :
  (Broker.Publish pub pubID msg br).2.2 = Returned →
  pub_Options msg !! "acknowledge" = Some (VBool true) →
  ∃ events,
    (Broker.Publish pub pubID msg br).2.1
    = events ++ [(pub, MPublished (pub_Request msg) pubID)]
    ∧ ∀ s m, (s, m) ∈ events → is_Some (Obs.event_subscription m).
Proof.
  intros Hret Hack%acknowledge_true. revert Hret. unfold Broker.Publish.
  set (event := λ id : ID,
         MEvent pubID id ∅ (pub_Arguments msg) (pub_ArgumentsKw msg)).
  pose proof (λ s m, fanout_sent_inv pub event
                (default ∅ (options br !! pub_Topic msg))
                (map_to_list (pub_Options msg))
                (map_to_list (default ∅ (routes br !! pub_Topic msg)))
                s m) as Hinv.
  destruct (Broker.fanout pub event _ _ _) as [sent [|]]; simpl in *;
    [|by intros [=]].
  intros _. rewrite Hack. simpl. exists sent. split; [done|].
  intros s m (id & _ & _ & _ & ->)%Hinv. simpl. eauto.
Qed.

Lemma Publish_acknowledged_last_witness :
  ∃ events,
    (Broker.Publish Scenario.bob 77 Scenario.publish_acknowledge
       Scenario.one_subscriber).2.1
    = events ++ [(Scenario.bob,
                  MPublished (pub_Request Scenario.publish_acknowledge) 77)]
    ∧ ∀ s m, (s, m) ∈ events → is_Some (Obs.event_subscription m).
Proof.
  apply (Publish_acknowledged_last Scenario.bob 77
           Scenario.publish_acknowledge Scenario.one_subscriber);
    reflexivity.
Defined.

(** X15: a session that has subscribed is sent the EVENT of its new
    subscription by the next [Publish] of another session to that topic,
    when the options of the two messages agree on every key they share and
    the [Publish] returns. *)
Theorem Subscribe_then_Publish_delivers (sub pub : SessionRef) (id pubID : ID)
    (smsg : Subscribe) (pmsg : Publish) (br : defaultBroker) :
  let br' := (Broker.Subscribe sub id smsg br).1 in
  pub_Topic pmsg = sub_Topic smsg →
  sub ≠ pub →
  Inv.options_agree (sub_Options smsg) (pub_Options pmsg) →
  (Broker.Publish pub pubID pmsg br').2.2 = Returned →
  (sub, MEvent pubID id ∅ (pub_Arguments pmsg) (pub_ArgumentsKw pmsg))
  ∈ (Broker.Publish pub pubID pmsg br').2.1.
Proof.
  intros br' Htopic Hne Hag Hret.
  apply Publish_sent_complete; [done|]. left. exists id.
  unfold Inv.captured_options, br'. simpl. rewrite Htopic.
  rewrite !lookup2_subscribe, !decide_True by done. done.
Qed.

Lemma Subscribe_then_Publish_delivers_witness :
  (3%positive, MEvent 77 13 ∅ [VInt 42] ∅)
  ∈ (Broker.Publish Scenario.bob 77 Scenario.publish_acknowledge
       (Broker.Subscribe 3%positive 13
          (mkSubscribe 4 {[ "match" := VString "exact" ]} "com.x")
          Cases.busy_broker).1).2.1.
Proof.
  apply (Subscribe_then_Publish_delivers 3%positive Scenario.bob 13 77
           (mkSubscribe 4 {[ "match" := VString "exact" ]} "com.x")
           Scenario.publish_acknowledge Cases.busy_broker).
  - reflexivity.
  - vm_compute. discriminate.
  - intros key subValue pubValue. simpl.
    intros [<- <-]%lookup_singleton_Some.
    unfold Scenario.publish_acknowledge. simpl.
    intros [[=] _]%lookup_singleton_Some.
  - reflexivity.
Defined.

(** X16: on a broker reached with ids handed out once each, after an
    [Unsubscribe] of an id, by whatever session, no [Publish] sends an
    EVENT for that id any more. *)
Theorem Unsubscribe_then_Publish_silent (cs : list BrokerCall)
    (sub pub s : SessionRef) (request id pubID : ID) (pmsg : Publish)
    (m : Message) :
  Inv.unique_ids cs →
  let br := Run.broker_calls cs Broker.NewDefaultBroker in
  let br' := (Broker.Unsubscribe sub (mkUnsubscribe request id) br).1 in
  (s, m) ∈ (Broker.Publish pub pubID pmsg br').2.1 →
  Obs.event_subscription m ≠ Some id.
Proof.
  intros Hu br br' Hin.
  pose proof (wf_reachable_calls cs Hu) as Hwf. fold br in Hwf.
  pose proof (wf_Unsubscribe _ sub (mkUnsubscribe request id) br Hwf) as Hwf'.
  fold br' in Hwf'.
  assert (subscriptions br' !! id = None) as Hnone.
  { unfold br', Broker.Unsubscribe. simpl.
    destruct (subscriptions br !! id) eqn:Hid; simpl; [|done].
    apply lookup_delete_eq. }
  apply Publish_sent_inv in Hin as [(id' & Hr & _ & _ & ->)|(_ & -> & _)];
    [|done].
  simpl. intros [= ->].
  destruct (Inv.wf_routes _ _ Hwf' _ _ _ Hr) as [Hs _]. by rewrite Hs in Hnone.
Qed.

Lemma Unsubscribe_then_Publish_silent_witness :
  let br' := (Broker.Unsubscribe Scenario.alice (mkUnsubscribe 5 10)
                Cases.busy_broker).1 in
  (Scenario.bob, MEvent 77 12 ∅ [VInt 42] ∅)
  ∈ (Broker.Publish Scenario.alice 77 Scenario.publish_acknowledge br').2.1
  ∧ Obs.event_subscription (MEvent 77 12 ∅ [VInt 42] ∅) ≠ Some 10%N.
Proof.
  intros br'.
  assert ((Scenario.bob, MEvent 77 12 ∅ [VInt 42] ∅)
          ∈ (Broker.Publish Scenario.alice 77 Scenario.publish_acknowledge
               br').2.1) as Hin.
  { vm_compute. apply list_elem_of_here. }
  split; [exact Hin|].
  apply (Unsubscribe_then_Publish_silent Cases.three_subscriptions
           Scenario.alice Scenario.alice Scenario.bob 5 10 77
           Scenario.publish_acknowledge _).
  - apply (bool_decide_unpack _). vm_compute. reflexivity.
  - exact Hin.
Defined.

(** X17: on a broker reached with ids handed out once each, after
    [RemoveSubscriber s] no [Publish] sends an EVENT to [s]: all a
    [Publish] can send to [s] is the PUBLISHED of a publication of its
    own. *)
Theorem RemoveSubscriber_then_Publish_silent (br : defaultBroker)
    (s pub : SessionRef) (pubID : ID) (pmsg : Publish) (m : Message) :
  Inv.reachable br →
  let br' := (Broker.RemoveSubscriber s br).1 in
  (s, m) ∈ (Broker.Publish pub pubID pmsg br').2.1 →
  s = pub ∧ m = MPublished (pub_Request pmsg) pubID.
Proof.
  intros [used Hwf]%wf_reachable br' Hin.
  pose proof (wf_RemoveSubscriber used s br Hwf) as Hwf'. fold br' in Hwf'.
  apply Publish_sent_inv in Hin as [(id & Hr & _)|(-> & -> & _)]; [|done].
  destruct (Inv.wf_routes _ _ Hwf' _ _ _ Hr) as [_ Hh].
  unfold Inv.holds, br' in Hh. simpl in Hh.
  rewrite lookup_delete_eq in Hh. set_solver.
Qed.

Lemma RemoveSubscriber_then_Publish_silent_witness :
  let br' := (Broker.RemoveSubscriber Scenario.alice Cases.busy_broker).1 in
  (Scenario.alice, MPublished 9 77)
  ∈ (Broker.Publish Scenario.alice 77 Scenario.publish_acknowledge br').2.1
  ∧ Scenario.alice = Scenario.alice
  ∧ MPublished 9 77
    = MPublished (pub_Request Scenario.publish_acknowledge) 77.
Proof.
  intros br'.
  assert ((Scenario.alice, MPublished 9 77)
          ∈ (Broker.Publish Scenario.alice 77 Scenario.publish_acknowledge
               br').2.1) as Hin.
  { vm_compute. apply list_elem_of_further, list_elem_of_here. }
  split; [exact Hin|].
  apply (RemoveSubscriber_then_Publish_silent Cases.busy_broker
           Scenario.alice Scenario.alice 77 Scenario.publish_acknowledge).
  - exists Cases.three_subscriptions. split; [|reflexivity].
    apply (bool_decide_unpack _). vm_compute. reflexivity.
  - exact Hin.
Defined.

(** ** Further properties of the router *)

Lemma closing_Close (r : defaultRouter) :
  closing (Router.Close r).1.1 = true
  ∧ realms (Router.Close r).1.1 = realms r.
Proof.
  unfold Router.Close. by destruct (closing r) eqn:Hc.
Qed.

Lemma realms_router_call (r : defaultRouter) (c : RouterCall) (uri : URI)
    (realm : Realm) :
  realms r !! uri = Some realm →
  realms (Run.router_call r c) !! uri = Some realm.
Proof.
  intros Hr. destruct c as [| |uri' realm'| | |]; simpl; try done.
  - unfold Router.Close. by destruct (closing r).
  - unfold Router.RegisterRealm.
    destruct (realms r !! uri') eqn:Hu; simpl; [done|].
    rewrite lookup_insert_ne; [done|]. intros ->. by rewrite Hr in Hu.
Qed.

Lemma realms_router_calls (cs : list RouterCall) (r : defaultRouter)
    (uri : URI) (realm : Realm) :
  realms r !! uri = Some realm →
  realms (Run.router_calls cs r) !! uri = Some realm.
Proof.
  revert r. induction cs as [|c cs IH]; intros r Hr; [done|].
  unfold Run.router_calls in *. simpl. by apply IH, realms_router_call.
Qed.

(** X18: [RegisterRealm] of a URI that is free initialises the realm and
    files it under the URI, leaving the other URIs, [closing] and the
    callbacks alone; registering the URI again, with whatever realm, fails
    with RealmExistsError, initialises nothing and keeps the first realm. *)
Theorem RegisterRealm_twice (uri : URI) (realm realm' : Realm)
    (r : defaultRouter) :
  realms r !! uri = None →
  let r1 := (Router.RegisterRealm uri realm r).1.1 in
  Router.RegisterRealm uri realm r = (r1, [ARealmInit realm], None)
  ∧ realms r1 !! uri = Some realm
  ∧ (∀ uri', uri' ≠ uri → realms r1 !! uri' = realms r !! uri')
  ∧ closing r1 = closing r
  ∧ sessionOpenCallbacks r1 = sessionOpenCallbacks r
  ∧ sessionCloseCallbacks r1 = sessionCloseCallbacks r
  ∧ Router.RegisterRealm uri realm' r1 = (r1, [], Some (RealmExistsError uri)).
Proof.
  intros Hfree r1.
  assert (Router.RegisterRealm uri realm r
          = (mkRouter (<[uri := realm]> (realms r)) (closing r)
               (sessionOpenCallbacks r) (sessionCloseCallbacks r),
             [ARealmInit realm], None)) as Heq.
  { unfold Router.RegisterRealm. by rewrite Hfree. }
  subst r1. rewrite Heq. simpl. split_and!; try done.
  - apply lookup_insert_eq.
  - intros uri' Hne. by apply lookup_insert_ne.
  - unfold Router.RegisterRealm. simpl. by rewrite lookup_insert_eq.
Qed.

Lemma RegisterRealm_twice_witness :
  let r1 := (Router.RegisterRealm "realm2" 2%positive Cases.one_realm).1.1 in
  Router.RegisterRealm "realm2" 2%positive Cases.one_realm
  = (r1, [ARealmInit 2%positive], None)
  ∧ realms r1 !! "realm2" = Some 2%positive
  ∧ (∀ uri', uri' ≠ "realm2" →
       realms r1 !! uri' = realms Cases.one_realm !! uri')
  ∧ closing r1 = closing Cases.one_realm
  ∧ sessionOpenCallbacks r1 = sessionOpenCallbacks Cases.one_realm
  ∧ sessionCloseCallbacks r1 = sessionCloseCallbacks Cases.one_realm
  ∧ Router.RegisterRealm "realm2" 3%positive r1
    = (r1, [], Some (RealmExistsError "realm2")).
Proof.
  apply (RegisterRealm_twice "realm2" 2%positive 3%positive Cases.one_realm).
  reflexivity.
Defined.

(** X19: no call on the router removes or replaces a registered realm, and
    none removes or reorders a registered callback: after any calls a URI
    still names the realm it named, and the callback lists start with what
    they were. *)
Theorem router_calls_keep_registrations (cs : list RouterCall)
    (r : defaultRouter) (uri : URI) (realm : Realm) :
  realms r !! uri = Some realm →
  realms (Run.router_calls cs r) !! uri = Some realm
  ∧ sessionOpenCallbacks r
    `prefix_of` sessionOpenCallbacks (Run.router_calls cs r)
  ∧ sessionCloseCallbacks r
    `prefix_of` sessionCloseCallbacks (Run.router_calls cs r).
Proof.
  intros Hr. split; [by apply realms_router_calls|]. clear Hr.
  revert r. induction cs as [|c cs IH]; intros r; [done|].
  unfold Run.router_calls in *. simpl.
  destruct (IH (Run.router_call r c)) as [Ho Hc].
  assert (sessionOpenCallbacks r
            `prefix_of` sessionOpenCallbacks (Run.router_call r c)
          ∧ sessionCloseCallbacks r
            `prefix_of` sessionCloseCallbacks (Run.router_call r c))
    as [Ho1 Hc1].
  { destruct c as [| |uri' realm'| |fn|fn]; simpl; try done.
    - unfold Router.Close. by destruct (closing r).
    - unfold Router.RegisterRealm. by destruct (realms r !! uri').
    - split; [by apply prefix_app_r | done].
    - split; [done | by apply prefix_app_r]. }
  split; by etrans.
Qed.

Lemma router_calls_keep_registrations_witness :
  let cs := [CallAddSessionOpenCallback 1%positive; CallClose;
             CallRegisterRealm "realm1" 5%positive;
             CallAddSessionCloseCallback 2%positive] in
  realms (Run.router_calls cs Cases.one_realm) !! "realm1" = Some 1%positive
  ∧ sessionOpenCallbacks Cases.one_realm
    `prefix_of` sessionOpenCallbacks (Run.router_calls cs Cases.one_realm)
  ∧ sessionCloseCallbacks Cases.one_realm
    `prefix_of` sessionCloseCallbacks (Run.router_calls cs Cases.one_realm).
Proof.
  intros cs.
  apply (router_calls_keep_registrations cs Cases.one_realm "realm1"
           1%positive).
  reflexivity.
Defined.

(** X20: once [Close] has been called, whatever calls come after it, every
    [Accept] sends the ABORT wamp.error.system_shutdown, closes the peer and
    returns an error, without waiting for a message. *)
Theorem Accept_after_Close (r : defaultRouter) (after : list RouterCall)
    (client : Peer) (env : AcceptEnv) :
  let r' := Run.router_calls after (Router.Close r).1.1 in
  Router.Accept client env r'
  = ([ASend client (MAbort "wamp.error.system_shutdown" ∅); AClose client],
     Some (Errorf "Router is closing, no new connections are allowed" None)).
Proof.
  intros r'.
  assert (closing r' = true) as Hc
    by (apply closing_router_calls, closing_Close).
  unfold Router.Accept. by rewrite Hc.
Qed.

(** X21: [GetLocalPeer] does not look at [closing]: once [Close] has been
    called, whatever calls come after it, it still starts the session loop
    of a registered realm on one end of a new pipe and returns the other
    end. *)
Theorem GetLocalPeer_after_Close (r : defaultRouter)
    (after : list RouterCall) (uri : URI) (realm : Realm)
    (details : option (gmap string Value)) (env : LocalPeerEnv) :
  realms r !! uri = Some realm →
  let r' := Run.router_calls after (Router.Close r).1.1 in
  closing r' = true
  ∧ Router.GetLocalPeer uri details env r'
    = ([ALocalPipe (env_localPipe env).1 (env_localPipe env).2;
        AGoHandleSession realm
          (mkSession (env_localPipe env).1 (env_localID env))
          (default ∅ details)],
       inl (env_localPipe env).2).
Proof.
  intros Hr r'.
  destruct (closing_Close r) as [Hc Hrealms].
  split; [by apply closing_router_calls|].
  assert (realms r' !! uri = Some realm) as Hr'.
  { apply realms_router_calls. by rewrite Hrealms. }
  unfold Router.GetLocalPeer. destruct (env_localPipe env) as [peerA peerB].
  by rewrite Hr'.
Qed.

Lemma GetLocalPeer_after_Close_witness :
  let r' := Run.router_calls [CallClose] (Router.Close Cases.one_realm).1.1 in
  closing r' = true
  ∧ Router.GetLocalPeer "realm1" None Cases.pipe r'
    = ([ALocalPipe (env_localPipe Cases.pipe).1 (env_localPipe Cases.pipe).2;
        AGoHandleSession 1%positive
          (mkSession (env_localPipe Cases.pipe).1 (env_localID Cases.pipe))
          (default ∅ None)],
       inl (env_localPipe Cases.pipe).2).
Proof.
  apply (GetLocalPeer_after_Close Cases.one_realm [CallClose] "realm1"
           1%positive None Cases.pipe).
  reflexivity.
Defined.

(** X22: [RegisterRealm] does not look at [closing] either: after [Close] a
    free URI is still registered and its realm initialised, and since every
    later [Close] fails with "already closed" and closes nothing, that realm
    is never closed by the router. *)
Theorem RegisterRealm_after_Close (r : defaultRouter) (uri : URI)
    (realm : Realm) (after : list RouterCall) :
  realms r !! uri = None →
  let r0 := (Router.Close r).1.1 in
  let r1 := (Router.RegisterRealm uri realm r0).1.1 in
  let r2 := Run.router_calls after r1 in
  Router.RegisterRealm uri realm r0 = (r1, [ARealmInit realm], None)
  ∧ realms r2 !! uri = Some realm
  ∧ Router.Close r2 = (r2, [], Some (Errorf "already closed" None)).
Proof.
  intros Hfree r0 r1 r2.
  destruct (closing_Close r) as [Hc Hrealms]. fold r0 in Hc, Hrealms.
  assert (realms r0 !! uri = None) as Hfree0 by by rewrite Hrealms.
  assert (Router.RegisterRealm uri realm r0 = (r1, [ARealmInit realm], None))
    as Hreg.
  { unfold r1, Router.RegisterRealm. by rewrite Hfree0. }
  assert (realms r1 !! uri = Some realm ∧ closing r1 = true) as [Hr1 Hc1].
  { unfold r1, Router.RegisterRealm. rewrite Hfree0. simpl.
    split; [apply lookup_insert_eq | done]. }
  split_and!; [done | by apply realms_router_calls |].
  assert (closing r2 = true) as Hc2 by by apply closing_router_calls.
  unfold Router.Close. by rewrite Hc2.
Qed.

Lemma RegisterRealm_after_Close_witness :
  let r0 := (Router.Close Cases.one_realm).1.1 in
  let r1 := (Router.RegisterRealm "realm2" 2%positive r0).1.1 in
  let r2 := Run.router_calls [CallClose] r1 in
  Router.RegisterRealm "realm2" 2%positive r0
  = (r1, [ARealmInit 2%positive], None)
  ∧ realms r2 !! "realm2" = Some 2%positive
  ∧ Router.Close r2 = (r2, [], Some (Errorf "already closed" None)).
Proof.
  apply (RegisterRealm_after_Close Cases.one_realm "realm2" 2%positive
           [CallClose]).
  reflexivity.
Defined.

(** The loop that adds the default details is a union that keeps what the
    realm has set. *)
Lemma add_default_details_union (details : gmap string Value) :
  Router.add_default_details details = details ∪ defaultWelcomeDetails.
Proof.
  unfold Router.add_default_details, defaultWelcomeDetails.
  rewrite map_to_list_singleton. simpl.
  destruct (details !! "roles") as [v|] eqn:Hroles.
  - apply map_eq. intros k. rewrite lookup_union.
    destruct (decide (k = "roles")) as [->|Hne].
    + by rewrite Hroles, lookup_singleton_eq.
    + rewrite lookup_singleton_ne by done. by destruct (details !! k).
  - apply map_eq. intros k. rewrite lookup_union.
    destruct (decide (k = "roles")) as [->|Hne].
    + by rewrite lookup_insert_eq, Hroles, lookup_singleton_eq.
    + rewrite lookup_insert_ne, lookup_singleton_ne by done.
      by destruct (details !! k).
Qed.

(** X23: [Accept] starts a session exactly when it returns no error; and
    it returns no error only when the router is not closing, the first
    message was a HELLO, its realm is registered, the realm let the peer in
    and the WELCOME could be sent.  What it has done then is, in this
    order: the receive, the authentication, the WELCOME, one [go] for each
    open callback in the order of registration, and the [go] of the session
    loop, all with the id [NewID()] returned, the peer of [Accept] and the
    details of the WELCOME. *)
Theorem Accept_starts_session (client : Peer) (env : AcceptEnv)
    (r : defaultRouter) :
  ((Router.Accept client env r).2 = None ↔
   ∃ a, a ∈ (Router.Accept client env r).1 ∧ Obs.starts_session a = true)
  ∧ ((Router.Accept client env r).2 = None →
     closing r = false
     ∧ ∃ hello realm welcome details,
         env_GetMessageTimeout env = inl (MHello hello)
         ∧ realms r !! hello_Realm hello = Some realm
         ∧ env_handleAuth env realm (hello_Details hello) = inl welcome
         ∧ env_SendWelcome env = None
         ∧ (Router.Accept client env r).1
           = [AGetMessageTimeout client 5;
              AHandleAuth realm client (hello_Details hello);
              ASend client (MWelcome (mkWelcome (env_NewID env)
                                        (Some details)))]
             ++ ((λ callback,
                    AGoCallback callback (env_NewID env) (hello_Realm hello)
                      details) <$> sessionOpenCallbacks r)
             ++ [AGoSession realm (mkSession client (env_NewID env)) details
                   (hello_Realm hello) (sessionCloseCallbacks r)]).
Proof.
  assert (∀ l : list Action,
            Forall (λ a, Obs.starts_session a = false) l →
            ¬ ∃ a, a ∈ l ∧ Obs.starts_session a = true) as Hnone.
  { intros l Hl (a & Hin & Ha). rewrite Forall_forall in Hl.
    by rewrite (Hl a Hin) in Ha. }
  unfold Router.Accept.
  destruct (closing r) eqn:Hc.
  { split; [|done]. split; [done|].
    intros []%Hnone. by repeat constructor. }
  destruct (env_GetMessageTimeout env) as [msg|err] eqn:Hmsg; simpl.
  2: { split; [|done]. split; [done|].
       intros []%Hnone. by repeat constructor. }
  destruct msg as [hello| | | | | | | | | | |];
    try (split; [|done]; split; [done|];
         intros []%Hnone; by repeat constructor).
  destruct (realms r !! hello_Realm hello) as [realm|] eqn:Hrealm.
  2: { split; [|done]. split; [done|].
       intros []%Hnone. by repeat constructor. }
  destruct (env_handleAuth env realm (hello_Details hello))
    as [welcome|err] eqn:Hauth.
  2: { split; [|done]. split; [done|].
       intros []%Hnone. by repeat constructor. }
  destruct (env_SendWelcome env) as [err|] eqn:Hsend; simpl.
  { split; [|done]. split; [done|].
    intros []%Hnone. by repeat constructor. }
  split.
  - split; [|done]. intros _.
    exists (AGoSession realm (mkSession client (env_NewID env))
              (Router.add_default_details (default ∅ (welcome_Details welcome)))
              (hello_Realm hello) (sessionCloseCallbacks r)).
    split; [|done].
    do 3 apply list_elem_of_further.
    apply elem_of_app. right. apply list_elem_of_here.
  - intros _. split; [done|].
    by exists hello, realm, welcome,
      (Router.add_default_details (default ∅ (welcome_Details welcome))).
Qed.

(** X24: a WELCOME that [Accept] sends carries the id [NewID()] returned
    and the details of the realm's draft completed with the default ones:
    every entry the realm has set is kept as it is, and the roles are added
    when the realm has set none. *)
Theorem Accept_welcome (client : Peer) (env : AcceptEnv) (r : defaultRouter)
    (peer : Peer) (w : Welcome) :
  ASend peer (MWelcome w) ∈ (Router.Accept client env r).1 →
  peer = client
  ∧ welcome_Id w = env_NewID env
  ∧ ∃ hello realm draft details,
      env_GetMessageTimeout env = inl (MHello hello)
      ∧ realms r !! hello_Realm hello = Some realm
      ∧ env_handleAuth env realm (hello_Details hello) = inl draft
      ∧ welcome_Details w = Some details
      ∧ details = default ∅ (welcome_Details draft) ∪ defaultWelcomeDetails
      ∧ (∀ key value,
           default ∅ (welcome_Details draft) !! key = Some value →
           details !! key = Some value)
      ∧ is_Some (details !! "roles").
Proof.
  assert (∀ l : list Action,
            Forall (λ a, Obs.sends_welcome a = false) l →
            ASend peer (MWelcome w) ∉ l) as Hnone.
  { intros l Hl Hin. rewrite Forall_forall in Hl. by apply Hl in Hin. }
  unfold Router.Accept.
  destruct (closing r) eqn:Hc.
  { intros []%Hnone. by repeat constructor. }
  destruct (env_GetMessageTimeout env) as [msg|err] eqn:Hmsg; simpl.
  2: { intros []%Hnone. by repeat constructor. }
  destruct msg as [hello| | | | | | | | | | |];
    try (intros []%Hnone; by repeat constructor).
  destruct (realms r !! hello_Realm hello) as [realm|] eqn:Hrealm.
  2: { intros []%Hnone. by repeat constructor. }
  destruct (env_handleAuth env realm (hello_Details hello))
    as [draft|err] eqn:Hauth.
  2: { intros []%Hnone. by repeat constructor. }
  assert (ASend peer (MWelcome w)
          = ASend client
              (MWelcome (mkWelcome (env_NewID env)
                 (Some (Router.add_default_details
                          (default ∅ (welcome_Details draft))))))
          → peer = client
            ∧ welcome_Id w = env_NewID env
            ∧ ∃ hello0 realm0 draft0 details,
                (inl (MHello hello) : Message + string)
                = inl (MHello hello0)
                ∧ realms r !! hello_Realm hello0 = Some realm0
                ∧ env_handleAuth env realm0 (hello_Details hello0)
                  = inl draft0
                ∧ welcome_Details w = Some details
                ∧ details
                  = default ∅ (welcome_Details draft0) ∪ defaultWelcomeDetails
                ∧ (∀ key value,
                     default ∅ (welcome_Details draft0) !! key = Some value →
                     details !! key = Some value)
                ∧ is_Some (details !! "roles")) as Hfound.
  { intros [= -> ->]. split_and!; [done..|].
    exists hello, realm, draft, (default ∅ (welcome_Details draft)
                                 ∪ defaultWelcomeDetails).
    split_and!; try done.
    - simpl. by rewrite add_default_details_union.
    - intros key value Hk. by apply lookup_union_Some_l.
    - rewrite lookup_union.
      destruct (default ∅ (welcome_Details draft) !! "roles"); simpl;
        unfold defaultWelcomeDetails; rewrite lookup_singleton_eq; eauto. }
  destruct (env_SendWelcome env) as [err|] eqn:Hsend; simpl.
  - intros [[=]|[[=]|[Heq|[]%elem_of_nil]%elem_of_cons]%elem_of_cons]%elem_of_cons.
    by apply Hfound.
  - intros [[=]|[[=]|[Heq|Hin]%elem_of_cons]%elem_of_cons]%elem_of_cons;
      [by apply Hfound|].
    apply elem_of_app in Hin
      as [(cb & [=] & _)%list_elem_of_fmap|[[=]|[]%elem_of_nil]%elem_of_cons].
Qed.

Lemma Accept_welcome_witness :
  ∃ w, ASend 4%positive (MWelcome w)
       ∈ (Router.Accept 4%positive Cases.hello_realm1 Cases.one_realm).1
       ∧ welcome_Id w = 7%N
       ∧ is_Some (default ∅ (welcome_Details w) !! "roles").
Proof.
  exists (mkWelcome 7 (Some (Router.add_default_details ∅))).
  assert (ASend 4%positive
            (MWelcome (mkWelcome 7 (Some (Router.add_default_details ∅))))
          ∈ (Router.Accept 4%positive Cases.hello_realm1 Cases.one_realm).1)
    as Hin.
  { vm_compute. do 2 apply list_elem_of_further. apply list_elem_of_here. }
  split; [exact Hin|].
  destruct (Accept_welcome 4%positive Cases.hello_realm1 Cases.one_realm
              4%positive _ Hin)
    as (_ & Hid & hello & realm & draft & details & _ & _ & _ & Hd & _ & _
        & Hroles).
  split; [exact Hid|]. rewrite Hd. exact Hroles.
Defined.

(** X25: whenever [Accept] sends an ABORT, its reason is one of the four
    error URIs, the next thing it does is to close the peer, and that is
    the last: it returns an error, and has sent no WELCOME and started no
    session. *)
Theorem Accept_abort_then_close (client : Peer) (env : AcceptEnv)
    (r : defaultRouter) (peer : Peer) (reason : URI)
    (details : gmap string Value) :
  ASend peer (MAbort reason details) ∈ (Router.Accept client env r).1 →
  peer = client
  ∧ reason ∈ ["wamp.error.system_shutdown"; "wamp.error.protocol_violation";
              "wamp.error.no_such_realm"; "wamp.error.authorization_failed"]
  ∧ is_Some (Router.Accept client env r).2
  ∧ (∃ before,
       (Router.Accept client env r).1
       = before ++ [ASend client (MAbort reason details); AClose client])
  ∧ ∀ a, a ∈ (Router.Accept client env r).1 →
         Obs.sends_welcome a = false ∧ Obs.starts_session a = false.
Proof.
  unfold Router.Accept.
  destruct (closing r) eqn:Hc.
  { intros [[= -> -> ->]|[[=]|[]%elem_of_nil]%elem_of_cons]%elem_of_cons.
    split_and!; [done | set_solver | eauto | by exists [] |].
    intros a Ha. repeat (apply elem_of_cons in Ha as [->|Ha]; [done|]).
    by apply elem_of_nil in Ha. }
  destruct (env_GetMessageTimeout env) as [msg|err] eqn:Hmsg; simpl.
  2: { by intros [[=]|[]%elem_of_nil]%elem_of_cons. }
  assert (∀ uri (before : list Action),
            Forall (λ a, Obs.sends_welcome a = false
                         ∧ Obs.starts_session a = false) before →
            uri ∈ ["wamp.error.system_shutdown";
                   "wamp.error.protocol_violation";
                   "wamp.error.no_such_realm";
                   "wamp.error.authorization_failed"] →
            ∀ d e,
            ASend peer (MAbort reason details)
            ∈ before ++ [ASend client (MAbort uri d); AClose client] →
            (∀ a, a ∈ before → a ≠ ASend peer (MAbort reason details)) →
            peer = client
            ∧ reason ∈ ["wamp.error.system_shutdown";
                        "wamp.error.protocol_violation";
                        "wamp.error.no_such_realm";
                        "wamp.error.authorization_failed"]
            ∧ is_Some (Some e : option error)
            ∧ (∃ before',
                 before ++ [ASend client (MAbort uri d); AClose client]
                 = before' ++ [ASend client (MAbort reason details);
                               AClose client])
            ∧ ∀ a, a ∈ before ++ [ASend client (MAbort uri d); AClose client]
                   → Obs.sends_welcome a = false
                     ∧ Obs.starts_session a = false) as Habort.
  { intros uri before Hbefore Huri d e Hin Hnot.
    apply elem_of_app in Hin as [Hin|Hin]; [by destruct (Hnot _ Hin)|].
    apply elem_of_cons in Hin as [[= -> -> ->]|Hin];
      [|by apply elem_of_cons in Hin as [[=]|[]%elem_of_nil]].
    split_and!; [done | done | eauto | by exists before |].
    intros a [Ha|Ha]%elem_of_app.
    - rewrite Forall_forall in Hbefore. by apply Hbefore.
    - repeat (apply elem_of_cons in Ha as [->|Ha]; [done|]).
      by apply elem_of_nil in Ha. }
  destruct msg as [hello| | | | | | | | | | |];
    try (intros Hin;
         apply (Habort "wamp.error.protocol_violation"
                  [AGetMessageTimeout client 5]);
         [by repeat constructor | set_solver | exact Hin |
          by intros a [->|[]%elem_of_nil]%elem_of_cons]).
  destruct (realms r !! hello_Realm hello) as [realm|] eqn:Hrealm.
  2: { intros Hin.
       apply (Habort "wamp.error.no_such_realm" [AGetMessageTimeout client 5]);
         [by repeat constructor | set_solver | exact Hin |
          by intros a [->|[]%elem_of_nil]%elem_of_cons]. }
  destruct (env_handleAuth env realm (hello_Details hello))
    as [draft|err] eqn:Hauth.
  2: { intros Hin.
       apply (Habort "wamp.error.authorization_failed"
                [AGetMessageTimeout client 5;
                 AHandleAuth realm client (hello_Details hello)]);
         [by repeat constructor | set_solver | exact Hin |].
       by intros a [->|[->|[]%elem_of_nil]%elem_of_cons]%elem_of_cons. }
  destruct (env_SendWelcome env) as [err|] eqn:Hsend; simpl.
  - by intros [[=]|[[=]|[[=]|[]%elem_of_nil]%elem_of_cons]%elem_of_cons]%elem_of_cons.
  - intros [[=]|[[=]|[[=]|Hin]%elem_of_cons]%elem_of_cons]%elem_of_cons.
    apply elem_of_app in Hin
      as [(cb & [=] & _)%list_elem_of_fmap|[[=]|[]%elem_of_nil]%elem_of_cons].
Qed.

Lemma Accept_abort_then_close_witness :
  let env := mkAcceptEnv (inl (MHello (mkHello "missing" ∅)))
               (λ _ _, inr "unused") 7 None in
  ASend 4%positive (MAbort "wamp.error.no_such_realm" ∅)
  ∈ (Router.Accept 4%positive env Cases.one_realm).1
  ∧ is_Some (Router.Accept 4%positive env Cases.one_realm).2
  ∧ ∃ before,
      (Router.Accept 4%positive env Cases.one_realm).1
      = before ++ [ASend 4%positive (MAbort "wamp.error.no_such_realm" ∅);
                   AClose 4%positive].
Proof.
  intros env.
  assert (ASend 4%positive (MAbort "wamp.error.no_such_realm" ∅)
          ∈ (Router.Accept 4%positive env Cases.one_realm).1) as Hin.
  { vm_compute. apply list_elem_of_further, list_elem_of_here. }
  split; [exact Hin|].
  destruct (Accept_abort_then_close 4%positive env Cases.one_realm
              4%positive "wamp.error.no_such_realm" ∅ Hin)
    as (_ & _ & Herr & Hlast & _).
  split; [exact Herr | exact Hlast].
Defined.

Lemma Accept_starts_session_witness :
  ∃ a, a ∈ (Router.Accept 4%positive Cases.hello_realm1 Cases.one_realm).1
       ∧ Obs.starts_session a = true.
Proof.
  apply (proj1 (proj1 (Accept_starts_session 4%positive Cases.hello_realm1
                         Cases.one_realm))).
  reflexivity.
Defined.
